(** * vault-operator: etcd storage configuration and GCP role controller

    A shallow embedding of
    - [pkg/vault/storage/etcd/etcd.go]: [Options.Apply] and
      [Options.GetStorageConfig];
    - the GCP role controller: [runGCPRoleInjector], [reconcileGCPRole],
      [runGCPRoleFinalizer], [finalizeGCPRole], [removeGCPRoleFinalizer] and
      [getGCPRoleId];
    and the properties of them that the specification states. *)

From Stdlib Require Import String Ascii List Bool Arith Lia.
From stdpp Require Import gmap strings.
Import ListNotations.

Local Open Scope string_scope.
Local Open Scope list_scope.

(** ** Go strings *)

Module GoString.

Definition nl : ascii := "010"%char.
Definition dq : ascii := "034"%char.

(** The one-character strings for a line feed and a double quote. *)
Definition NL : string := String nl EmptyString.
Definition Q : string := String dq EmptyString.

(** [fmt.Sprintf] restricted to the verb the program uses, [%s]: each
    [%s] is replaced by the next operand, a missing operand prints as Go
    prints it, every other character is copied. *)
Fixpoint Sprintf (format : string) (a : list string) : string :=
  match format with
  | EmptyString => EmptyString
  | String c rest =>
      if Ascii.eqb c "%"%char then
        match rest with
        | String d rest' =>
            if Ascii.eqb d "s"%char then
              match a with
              | x :: a' => x +:+ Sprintf rest' a'
              | [] => "%!s(MISSING)" +:+ Sprintf rest' []
              end
            else String c (Sprintf rest a)
        | EmptyString => "%!(NOVERB)"
        end
      else String c (Sprintf rest a)
  end.

(** [strings.Join]. *)
Fixpoint Join (elems : list string) (sep : string) : string :=
  match elems with
  | [] => EmptyString
  | [x] => x
  | x :: rest => x +:+ sep +:+ Join rest sep
  end.

(** [strings.Split(s, sep)] for a one-character separator. *)
Fixpoint Split (s : string) (sep : ascii) : list string :=
  match s with
  | EmptyString => [EmptyString]
  | String c rest =>
      if Ascii.eqb c sep then EmptyString :: Split rest sep
      else match Split rest sep with
           | h :: t => String c h :: t
           | [] => [String c EmptyString]
           end
  end.

(** [strings.HasPrefix]. *)
Fixpoint HasPrefix (s pre : string) : bool :=
  match pre, s with
  | EmptyString, _ => true
  | String _ _, EmptyString => false
  | String a pre', String b s' => Ascii.eqb a b && HasPrefix s' pre'
  end.

(** [strings.Contains]. *)
Fixpoint Contains (s sub : string) : bool :=
  HasPrefix s sub
  || match s with
     | EmptyString => false
     | String _ rest => Contains rest sub
     end.

(** The lines of a text: the pieces that the line feeds end, and the piece
    after the last line feed when it is not empty. *)
Definition Lines (text : string) : list string :=
  let pieces := Split text nl in
  if String.eqb (List.last pieces EmptyString) EmptyString
  then List.removelast pieces else pieces.

(** A line has no line feed in it. *)
Fixpoint one_line (s : string) : bool :=
  match s with
  | EmptyString => true
  | String c rest => negb (Ascii.eqb c nl) && one_line rest
  end.

Definition blank (s : string) : bool := String.eqb s EmptyString.

(** The text has two line feeds in a row, that is, an empty line between
    two of its lines. *)
Definition two_line_feeds (text : string) : bool := Contains text (NL +:+ NL).

End GoString.

(** ** [path/filepath] on a Unix target *)

Module Filepath.
Import GoString.

Definition slash : ascii := "/"%char.

(** The element stack of [Clean]: [.] and empty elements vanish, [..]
    removes the element before it, is dropped at the root and is kept at
    the start of a relative path. The stack is kept reversed. *)
Fixpoint clean_elems (rooted : bool) (elems rev_out : list string) : list string :=
  match elems with
  | [] => List.rev rev_out
  | e :: rest =>
      if String.eqb e EmptyString || String.eqb e "." then
        clean_elems rooted rest rev_out
      else if String.eqb e ".." then
        match rev_out with
        | top :: below =>
            if String.eqb top ".." then clean_elems rooted rest (e :: rev_out)
            else clean_elems rooted rest below
        | [] =>
            if rooted then clean_elems rooted rest []
            else clean_elems rooted rest [e]
        end
      else clean_elems rooted rest (e :: rev_out)
  end.

Definition Clean (path : string) : string :=
  let rooted := HasPrefix path "/" in
  let body := Join (clean_elems rooted (Split path slash) []) "/" in
  let out := if rooted then "/" +:+ body else body in
  if String.eqb out EmptyString then "." else out.

(** [filepath.Join]: the elements from the first non-empty one on are
    joined with a slash and cleaned; the result is empty when every
    element is. *)
Fixpoint Join (elem : list string) : string :=
  match elem with
  | [] => EmptyString
  | e :: rest =>
      if String.eqb e EmptyString then Join rest
      else Clean (GoString.Join elem "/")
  end.

End Filepath.

(** ** The Kubernetes objects [Apply] works on

    The fields of [core/v1] that the program reads or writes, with the
    pointer-typed ones as options. *)

Module Core.

Record SecretVolumeSource := { SecretName : string }.

Record VolumeSource := { Secret : option SecretVolumeSource }.

Record Volume := { vol_Name : string; vol_VolumeSource : VolumeSource }.

Record VolumeMount := {
  mnt_Name : string;
  mnt_ReadOnly : bool;
  mnt_MountPath : string
}.

Record SecretKeySelector := {
  sel_Name : string;   (* LocalObjectReference.Name *)
  sel_Key : string
}.

Record EnvVarSource := { SecretKeyRef : option SecretKeySelector }.

Record EnvVar := {
  env_Name : string;
  env_Value : string;
  env_ValueFrom : option EnvVarSource
}.

Record Container := {
  ctr_Name : string;
  ctr_Image : string;
  ctr_Args : list string;
  ctr_Env : list EnvVar;
  ctr_VolumeMounts : list VolumeMount
}.

Record PodSpec := {
  Volumes : list Volume;
  Containers : list Container
}.

Record PodTemplateSpec := {
  Labels : list (string * string);
  Spec : PodSpec
}.

End Core.

(** ** [pkg/vault/storage/etcd] *)

Module Etcd.
Import GoString Core.

(** [api.EtcdSpec]. *)
Record EtcdSpec := {
  Address : string;
  EtcdApi : string;
  Path : string;
  DiscoverySrv : string;
  HAEnable : bool;
  Sync : bool;
  TLSSecretName : string;
  CredentialSecretName : string
}.

Definition EtcdTLSAssetDir : string := "/etc/vault/storage/etcd/tls/".
Definition EtcdClientCaName : string := "ca.crt".
Definition EtcdClientCertName : string := "tls.crt".
Definition EtcdClientKeyName : string := "tls.key".

Definition etcdStorageFmt : string :=
  NL +:+ "storage " +:+ Q +:+ "etcd" +:+ Q +:+ " {" +:+ NL
     +:+ "%s" +:+ NL
     +:+ "}" +:+ NL.

(** [Options] embeds the spec. *)
Record Options := { spec : EtcdSpec }.

Definition error := string.

Definition NewOptions (s : EtcdSpec) : Options * option error :=
  ({| spec := s |}, None).

Definition nonempty (s : string) : bool := negb (String.eqb s EmptyString).

(** What a call leaves behind: it returns, or it panics half way, and in
    both cases the pod template is as the call has mutated it so far. *)
Inductive outcome :=
| Returned (pt : PodTemplateSpec) (err : option error)
| Panicked (pt : PodTemplateSpec).

(** The pod template as the call leaves it. *)
Definition template_after (r : outcome) : PodTemplateSpec :=
  match r with
  | Returned pt _ => pt
  | Panicked pt => pt
  end.

Definition with_Volumes (pt : PodTemplateSpec) (vs : list Volume) : PodTemplateSpec :=
  {| Labels := Labels pt;
     Spec := {| Volumes := vs; Containers := Containers (Spec pt) |} |}.

Definition with_Containers (pt : PodTemplateSpec) (cs : list Container) : PodTemplateSpec :=
  {| Labels := Labels pt;
     Spec := {| Volumes := Volumes (Spec pt); Containers := cs |} |}.

Definition with_VolumeMounts (c : Container) (ms : list VolumeMount) : Container :=
  {| ctr_Name := ctr_Name c; ctr_Image := ctr_Image c; ctr_Args := ctr_Args c;
     ctr_Env := ctr_Env c; ctr_VolumeMounts := ms |}.

Definition with_Env (c : Container) (es : list EnvVar) : Container :=
  {| ctr_Name := ctr_Name c; ctr_Image := ctr_Image c; ctr_Args := ctr_Args c;
     ctr_Env := es; ctr_VolumeMounts := ctr_VolumeMounts c |}.

(** [pt.Spec.Containers[0] = f(pt.Spec.Containers[0])]; [None] is the
    index-out-of-range panic. *)
Definition update_Containers0 (f : Container -> Container) (pt : PodTemplateSpec)
  : option PodTemplateSpec :=
  match Containers (Spec pt) with
  | [] => None
  | c0 :: cs => Some (with_Containers pt (f c0 :: cs))
  end.

Definition etcdTLSAssetVolume : string := "vault-etcd-tls".

Definition tlsVolume (o : Options) : Volume :=
  {| vol_Name := etcdTLSAssetVolume;
     vol_VolumeSource :=
       {| Secret := Some {| SecretName := TLSSecretName (spec o) |} |} |}.

Definition tlsVolumeMount : VolumeMount :=
  {| mnt_Name := etcdTLSAssetVolume;
     mnt_ReadOnly := true;
     mnt_MountPath := EtcdTLSAssetDir |}.

Definition secretEnv (o : Options) (name key : string) : EnvVar :=
  {| env_Name := name;
     env_Value := EmptyString;
     env_ValueFrom :=
       Some {| SecretKeyRef :=
                 Some {| sel_Name := CredentialSecretName (spec o);
                         sel_Key := key |} |} |}.

Definition credentialEnv (o : Options) : list EnvVar :=
  [ secretEnv o "ETCD_USERNAME" "username";
    secretEnv o "ETCD_PASSWORD" "password" ].

(** The first [if] of [Apply]: the volume is appended before the first
    container is indexed. *)
Definition applyTLS (o : Options) (pt : PodTemplateSpec) : outcome :=
  if nonempty (TLSSecretName (spec o)) then
    let pt1 := with_Volumes pt (Volumes (Spec pt) ++ [tlsVolume o]) in
    match update_Containers0
            (fun c => with_VolumeMounts c (ctr_VolumeMounts c ++ [tlsVolumeMount])) pt1 with
    | Some pt2 => Returned pt2 None
    | None => Panicked pt1
    end
  else Returned pt None.

(** The second [if] of [Apply]. *)
Definition applyCredential (o : Options) (pt : PodTemplateSpec) : outcome :=
  if nonempty (CredentialSecretName (spec o)) then
    match update_Containers0
            (fun c => with_Env c (ctr_Env c ++ credentialEnv o)) pt with
    | Some pt1 => Returned pt1 None
    | None => Panicked pt
    end
  else Returned pt None.

Definition Apply (o : Options) (pt : PodTemplateSpec) : outcome :=
  match applyTLS o pt with
  | Returned pt1 _ => applyCredential o pt1
  | Panicked pt1 => Panicked pt1
  end.

(** The [params] slice of [GetStorageConfig], in the order of the appends. *)
Definition params (o : Options) : list string :=
  let s := spec o in
  (if nonempty (Address s)
   then [Sprintf ("address = " +:+ Q +:+ "%s" +:+ Q) [Address s]] else [])
  ++ (if nonempty (EtcdApi s)
      then [Sprintf ("etcd_api = " +:+ Q +:+ "%s" +:+ Q) [EtcdApi s]] else [])
  ++ (if nonempty (Path s)
      then [Sprintf ("path = " +:+ Q +:+ "%s" +:+ Q) [Path s]] else [])
  ++ (if nonempty (DiscoverySrv s)
      then [Sprintf ("discovery_srv = " +:+ Q +:+ "%s" +:+ Q) [DiscoverySrv s]] else [])
  ++ (if HAEnable s
      then ["ha_enabled = " +:+ Q +:+ "true" +:+ Q]
      else ["ha_enabled = " +:+ Q +:+ "false" +:+ Q])
  ++ (if Sync s
      then ["sync = " +:+ Q +:+ "true" +:+ Q]
      else ["sync = " +:+ Q +:+ "false" +:+ Q])
  ++ (if nonempty (TLSSecretName s)
      then [ Sprintf ("tls_ca_file = " +:+ Q +:+ "%s" +:+ Q)
               [Filepath.Join [EtcdTLSAssetDir; EtcdClientCaName]];
             Sprintf ("tls_cert_file = " +:+ Q +:+ "%s" +:+ Q)
               [Filepath.Join [EtcdTLSAssetDir; EtcdClientCertName]];
             Sprintf ("tls_key_file = " +:+ Q +:+ "%s" +:+ Q)
               [Filepath.Join [EtcdTLSAssetDir; EtcdClientKeyName]] ]
      else []).

Definition GetStorageConfig (o : Options) : string * option error :=
  let storageCfg := Sprintf etcdStorageFmt [Join (params o) NL] in
  (storageCfg, None).

(** The lines of the text: the opening line of the block, the line of a
    string field and of a boolean field, and the three TLS lines. *)
Definition header : string := "storage " +:+ Q +:+ "etcd" +:+ Q +:+ " {".

Definition field_line (key value : string) : string :=
  key +:+ " = " +:+ Q +:+ value +:+ Q.

Definition bool_line (key : string) (b : bool) : string :=
  field_line key (if b then "true" else "false").

Definition tls_lines : list string :=
  [ field_line "tls_ca_file" "/etc/vault/storage/etcd/tls/ca.crt";
    field_line "tls_cert_file" "/etc/vault/storage/etcd/tls/tls.crt";
    field_line "tls_key_file" "/etc/vault/storage/etcd/tls/tls.key" ].

Definition optional (key value : string) : list string :=
  if nonempty value then [field_line key value] else [].

(** The text as the specification words it: one [key = "value"] line for
    each string field that is present, in the order of the fields, then the
    two boolean lines, then the TLS lines when a TLS secret is named, joined
    by single line feeds inside the block of the template. A field that is
    left out is not among the present fields, so nothing stands for it. *)
Definition string_fields (o : Options) : list (string * string) :=
  [ ("address", Address (spec o)); ("etcd_api", EtcdApi (spec o));
    ("path", Path (spec o)); ("discovery_srv", DiscoverySrv (spec o)) ].

Definition present_fields (o : Options) : list (string * string) :=
  List.filter (fun kv => nonempty (snd kv)) (string_fields o).

Definition expected_lines (o : Options) : list string :=
  map (fun kv => field_line (fst kv) (snd kv)) (present_fields o)
  ++ [ bool_line "ha_enabled" (HAEnable (spec o)); bool_line "sync" (Sync (spec o)) ]
  ++ (if nonempty (TLSSecretName (spec o)) then tls_lines else []).

Definition expected_text (o : Options) : string :=
  NL +:+ header +:+ NL +:+ Join (expected_lines o) NL +:+ NL +:+ "}" +:+ NL.

(** The same options with another credential secret. *)
Definition with_CredentialSecretName (o : Options) (name : string) : Options :=
  let s := spec o in
  {| spec := {| Address := Address s; EtcdApi := EtcdApi s; Path := Path s;
                DiscoverySrv := DiscoverySrv s; HAEnable := HAEnable s;
                Sync := Sync s; TLSSecretName := TLSSecretName s;
                CredentialSecretName := name |} |}.

(** The same options with another TLS secret. *)
Definition with_TLSSecretName (o : Options) (name : string) : Options :=
  let s := spec o in
  {| spec := {| Address := Address s; EtcdApi := EtcdApi s; Path := Path s;
                DiscoverySrv := DiscoverySrv s; HAEnable := HAEnable s;
                Sync := Sync s; TLSSecretName := name;
                CredentialSecretName := CredentialSecretName s |} |}.

(** The spec of the scenario: an address, HA on, sync off. *)
Definition scenario : Options :=
  {| spec := {| Address := "http://etcd:2379"; EtcdApi := EmptyString;
                Path := EmptyString; DiscoverySrv := EmptyString;
                HAEnable := true; Sync := false;
                TLSSecretName := EmptyString;
                CredentialSecretName := EmptyString |} |}.

(** The spec with every optional field left out. *)
Definition bare (ha sync : bool) : Options :=
  {| spec := {| Address := EmptyString; EtcdApi := EmptyString;
                Path := EmptyString; DiscoverySrv := EmptyString;
                HAEnable := ha; Sync := sync;
                TLSSecretName := EmptyString;
                CredentialSecretName := EmptyString |} |}.

(** A spec with both secrets, and the pod template of a one-container
    Vault deployment. *)
Definition secured : Options :=
  {| spec := {| Address := "https://etcd:2379"; EtcdApi := "v3";
                Path := EmptyString; DiscoverySrv := EmptyString;
                HAEnable := true; Sync := true;
                TLSSecretName := "etcd-tls";
                CredentialSecretName := "etcd-cred" |} |}.

Definition vault_container : Container :=
  {| ctr_Name := "vault"; ctr_Image := "vault:0.8.3";
     ctr_Args := ["server"; "-dev"; "-log-level=debug"];
     ctr_Env := []; ctr_VolumeMounts := [] |}.

Definition vault_template : PodTemplateSpec :=
  {| Labels := [("app", "vault-server")];
     Spec := {| Volumes := []; Containers := [vault_container] |} |}.

Definition empty_template : PodTemplateSpec :=
  {| Labels := []; Spec := {| Volumes := []; Containers := [] |} |}.

End Etcd.


(** ** The GCP role controller *)

Module Controller.
Import GoString.

(** *** Errors *)

(** The reason of an API status error, as [kerr.IsNotFound] and its
    siblings read it. *)
Inductive StatusReason := NotFound | Conflict | AlreadyExists | InternalError.

(** An error as a collaborator (the role adapter, the resource store)
    returns it. *)
Record base_error := { reason : StatusReason; message : string }.

#[local] Set Warnings "-register-all".

(** The errors the controller returns: a collaborator's error,
    [errors.Wrap] of one, or a [utilerrors] aggregate. *)
Inductive error :=
| Base (e : base_error)
| Wrap (cause : error) (msg : string)
| Aggregate (errs : list error).

Definition IsNotFound (e : option base_error) : bool :=
  match e with
  | Some {| reason := NotFound |} => true
  | _ => false
  end.

(** [utilerrors.NewAggregate]: the nil entries are dropped, and the
    result is nil when nothing is left. *)
Definition NewAggregate (errlist : list (option error)) : option error :=
  match omap id errlist with
  | [] => None
  | errs => Some (Aggregate errs)
  end.

(** *** Resources *)

(** [kmapi.Condition], with the condition types as an enumeration: the
    strings behind them are declared outside these sources. *)
Inductive ConditionType := ConditionFailure | ConditionAvailable.
Inductive ConditionStatus := ConditionTrue | ConditionFalse | ConditionUnknown.

Record Condition := {
  cond_Type : ConditionType;
  cond_Status : ConditionStatus;
  cond_Reason : string;
  cond_Message : string
}.

Definition GCPRolePhase := string.
Definition GCPRolePhaseSuccess : GCPRolePhase := "Success".
Definition GCPRoleFinalizer : string := "gcprole.engine.kubevault.com".

Record GCPRoleStatus := {
  Phase : GCPRolePhase;
  ObservedGeneration : Z;
  Conditions : list Condition
}.

Record ObjectMeta := {
  Name : string;
  Namespace : string;
  Generation : Z;
  DeletionTimestamp : option nat;
  Finalizers : list string
}.

Record GCPRole := {
  Meta : ObjectMeta;
  Status : GCPRoleStatus
}.

Definition with_Status (r : GCPRole) (s : GCPRoleStatus) : GCPRole :=
  {| Meta := Meta r; Status := s |}.

Definition with_Meta (r : GCPRole) (m : ObjectMeta) : GCPRole :=
  {| Meta := m; Status := Status r |}.

(** [core_util.HasFinalizer] and [core_util.RemoveFinalizer]. *)
Definition HasFinalizer (m : ObjectMeta) (finalizer : string) : bool :=
  existsb (String.eqb finalizer) (Finalizers m).

Definition RemoveFinalizer (m : ObjectMeta) (finalizer : string) : ObjectMeta :=
  {| Name := Name m; Namespace := Namespace m; Generation := Generation m;
     DeletionTimestamp := DeletionTimestamp m;
     Finalizers := List.filter (fun name => negb (String.eqb name finalizer))
                     (Finalizers m) |}.

(** The key of a resource in the store. *)
Definition key_of (namespace name : string) : string :=
  namespace +:+ "/" +:+ name.

(** *** The world the controller runs in *)

(** What a run leaves in the log of the world: the calls on the
    collaborators with their results, the entries into
    [removeGCPRoleFinalizer], the operations on the finalizer registry and
    the waits of the finalization loop. *)
Inductive event :=
| ECreateRole (r : option base_error)
| ENewGCPRole (r : option base_error)
| EDeleteRole (name : string) (r : option base_error)
| EGet (key : string) (r : option base_error)
| EPatchGCPRole (key : string) (r : option base_error)
| EUpdateGCPRoleStatus (key : string) (r : option base_error)
| ERemoveFinalizer (key : string)
| ERegistryAdd (id : string)
| ERegistryDelete (id : string)
| EWait (timedOut : bool).

(** The state: the resource store, the finalizer registry
    ([c.finalizerInfo]), the clock and the log. *)
Record World := {
  store : gmap string GCPRole;
  finalizerInfo : gmap string bool;
  now : nat;
  trace : list event
}.

(** The collaborators. How a call ends may depend on everything that
    happened before it, so each is a function of the log. A call on the
    store may fail for a reason of the store's own, with the message that
    [getFault] or [patchFault] gives; the store answers NotFound when,
    and only when, the resource is absent. The constants declared outside
    these sources are fields as well. *)
Record Env := {
  ResourceGCPRole : string;
  RoleName : GCPRole -> string;
  createRole : list event -> option base_error;
  newGCPRole : list event -> option base_error;
  deleteRole : list event -> option base_error;
  getFault : list event -> option string;
  patchFault : list event -> option string;
  latency : list event -> nat
}.

Definition transient (msg : string) : base_error :=
  {| reason := InternalError; message := msg |}.

Definition not_found (key : string) : base_error :=
  {| reason := NotFound; message := "gcproles " +:+ key +:+ " not found" |}.

(** The events of the finalizer registry, and the events that a removal of
    the finalizer token leaves. *)
Definition is_registry (e : event) : bool :=
  match e with
  | ERegistryAdd _ | ERegistryDelete _ => true
  | _ => false
  end.

Definition is_removal (e : event) : bool :=
  match e with
  | ERemoveFinalizer _ | EGet _ _ | EPatchGCPRole _ _ => true
  | _ => false
  end.

Definition is_removal_call (e : event) : bool :=
  match e with
  | ERemoveFinalizer _ => true
  | _ => false
  end.

(** What the finalization loop may leave in the log, and what it may
    leave while the role is not yet deleted. *)
Definition loop_event (e : event) : bool := negb (is_registry e).

Definition delete_event (e : event) : bool :=
  negb (is_registry e) && negb (is_removal e).

(** How often [removeGCPRoleFinalizer] was entered. *)
Definition removal_calls (tr : list event) : nat :=
  List.length (List.filter is_removal_call tr).

(** A small state monad over the world. *)
Definition M (A : Type) : Type := World -> A * World.

Definition ret {A} (a : A) : M A := fun w => (a, w).

Definition bind {A B} (c : M A) (k : A -> M B) : M B :=
  fun w => let '(a, w1) := c w in k a w1.

Notation "x <- c ;; k" := (bind c (fun x => k))
  (at level 100, c at next level, right associativity).
Notation "c ;;; k" := (bind c (fun _ => k))
  (at level 100, right associativity).

Definition emit (e : event) : M unit :=
  fun w => (tt, {| store := store w; finalizerInfo := finalizerInfo w;
                   now := now w; trace := trace w ++ [e] |}).

Definition set_store (s : gmap string GCPRole) : M unit :=
  fun w => (tt, {| store := s; finalizerInfo := finalizerInfo w;
                   now := now w; trace := trace w |}).

Definition set_finalizerInfo (r : gmap string bool) : M unit :=
  fun w => (tt, {| store := store w; finalizerInfo := r;
                   now := now w; trace := trace w |}).

Definition set_now (t : nat) : M unit :=
  fun w => (tt, {| store := store w; finalizerInfo := finalizerInfo w;
                   now := t; trace := trace w |}).

Definition get_world : M World := fun w => (w, w).

Section WithEnv.
Variable env : Env.

(** A call on a collaborator takes the time the environment gives it. *)
Definition elapse : M unit :=
  w <- get_world ;; set_now (now w + latency env (trace w)).

(** The world after a call on a collaborator that leaves the store as
    it is. *)
Definition called (ev : event) (w : World) : World :=
  {| store := store w; finalizerInfo := finalizerInfo w;
     now := now w + latency env (trace w); trace := trace w ++ [ev] |}.

(** The world after a call that writes [m] under [key]. *)
Definition written (key : string) (m : GCPRole) (ev : event) (w : World) : World :=
  {| store := <[key := m]> (store w); finalizerInfo := finalizerInfo w;
     now := now w + latency env (trace w); trace := trace w ++ [ev] |}.

(** *** The finalizer registry *)

(** Modelled from the spec: the registry type behind [c.finalizerInfo]
    is declared outside these sources; the specification has it as an
    in-memory mapping from a resource id to an active marker with
    [IsAlreadyProcessing], [Add] and [Delete]. *)
Definition IsAlreadyProcessing (id : string) : M bool :=
  w <- get_world ;; ret (bool_decide (is_Some (finalizerInfo w !! id))).

(** Modelled from the spec: [Add] of the same registry, which marks the id
    as active. *)
Definition Add (id : string) : M unit :=
  w <- get_world ;;
  set_finalizerInfo (<[id := true]> (finalizerInfo w)) ;;;
  emit (ERegistryAdd id).

(** Modelled from the spec: [Delete] of the same registry, which removes
    the id. *)
Definition Delete (id : string) : M unit :=
  w <- get_world ;;
  set_finalizerInfo (delete id (finalizerInfo w)) ;;;
  emit (ERegistryDelete id).

(** *** The resource store *)

(** Modelled from the spec: the typed client and [patchutil] are declared
    outside these sources; the specification has the store as
    [Get(key)], which fails with NotFound when the resource is absent,
    and [Patch(key, mutatorFn)], which reads the current resource,
    applies the mutator and writes the result, and fails with NotFound
    when the resource is absent. *)
Definition Get_answer (key : string) (w : World) : option GCPRole * option base_error :=
  match getFault env (trace w) with
  | Some msg => (None, Some (transient msg))
  | None =>
      match store w !! key with
      | Some m => (Some m, None)
      | None => (None, Some (not_found key))
      end
  end.

(** Modelled from the spec: [Get] of the typed client, a call on the store
    that takes time and answers as above. *)
Definition Get (namespace name : string) : M (option GCPRole * option base_error) :=
  let key := key_of namespace name in
  w <- get_world ;;
  elapse ;;;
  let res := Get_answer key w in
  emit (EGet key (snd res)) ;;;
  ret res.

(** Modelled from the spec: the read-modify-write that the two helpers of
    [patchutil] share. *)
Definition patch (key : string) (ev : option base_error -> event)
           (transform : GCPRole -> GCPRole) : M (option base_error) :=
  w <- get_world ;;
  elapse ;;;
  match patchFault env (trace w) with
  | Some msg => emit (ev (Some (transient msg))) ;;; ret (Some (transient msg))
  | None =>
      match store w !! key with
      | Some cur =>
          set_store (<[key := transform cur]> (store w)) ;;;
          emit (ev None) ;;;
          ret None
      | None => emit (ev (Some (not_found key))) ;;; ret (Some (not_found key))
      end
  end.

(** Modelled from the spec: [patchutil.PatchGCPRole], the patch of the
    resource that has the namespace and the name of [cur]. *)
Definition PatchGCPRole (cur : GCPRole) (transform : GCPRole -> GCPRole)
  : M (option base_error) :=
  let key := key_of (Namespace (Meta cur)) (Name (Meta cur)) in
  patch key (EPatchGCPRole key) transform.

(** Modelled from the spec: [patchutil.UpdateGCPRoleStatus], the patch of
    the status alone. *)
Definition UpdateGCPRoleStatus (meta : ObjectMeta)
           (transform : GCPRoleStatus -> GCPRoleStatus) : M (option base_error) :=
  let key := key_of (Namespace meta) (Name meta) in
  patch key (EUpdateGCPRoleStatus key)
        (fun cur => with_Status cur (transform (Status cur))).

(** *** The role adapter *)

Definition CreateRole : M (option base_error) :=
  w <- get_world ;;
  elapse ;;;
  let r := createRole env (trace w) in
  emit (ECreateRole r) ;;; ret r.

Definition NewGCPRole : M (option base_error) :=
  w <- get_world ;;
  elapse ;;;
  let r := newGCPRole env (trace w) in
  emit (ENewGCPRole r) ;;; ret r.

Definition DeleteRole (name : string) : M (option base_error) :=
  w <- get_world ;;
  elapse ;;;
  let r := deleteRole env (trace w) in
  emit (EDeleteRole name r) ;;; ret r.

(** *** [reconcileGCPRole] *)

(** The two status mutators that [reconcileGCPRole] hands to
    [UpdateGCPRoleStatus]. *)
Definition failureStatus (err : base_error) (status : GCPRoleStatus) : GCPRoleStatus :=
  {| Phase := Phase status;
     ObservedGeneration := ObservedGeneration status;
     Conditions := [ {| cond_Type := ConditionFailure;
                        cond_Status := ConditionTrue;
                        cond_Reason := "FailedToCreateRole";
                        cond_Message := message err |} ] |}.

Definition successStatus (role : GCPRole) (status : GCPRoleStatus) : GCPRoleStatus :=
  {| Phase := GCPRolePhaseSuccess;
     ObservedGeneration := Generation (Meta role);
     Conditions := [] |}.

(** [gcpRClient] is the role adapter of the environment, and [err.Error()]
    of the error it returns is the message of that error. *)
Definition reconcileGCPRole (role : GCPRole) : M (option error) :=
  err <- CreateRole ;;
  match err with
  | Some e =>
      err2 <- UpdateGCPRoleStatus (Meta role) (failureStatus e) ;;
      ret (NewAggregate [ Base <$> err2;
                          Some (Wrap (Base e) "failed to create role") ])
  | None =>
      err <- UpdateGCPRoleStatus (Meta role) (successStatus role) ;;
      ret (Base <$> err)
  end.

(** *** Finalization *)

Definition getGCPRoleId (role : GCPRole) : string :=
  Sprintf "%s/%s/%s"
    [ResourceGCPRole env; Namespace (Meta role); Name (Meta role)].

Definition finalizeGCPRole (role : GCPRole) : M (option error) :=
  err <- DeleteRole (RoleName env role) ;;
  match err with
  | Some e => ret (Some (Wrap (Base e) "failed to delete gcp role"))
  | None => ret None
  end.

(** The mutator that [removeGCPRoleFinalizer] hands to [PatchGCPRole]. *)
Definition withoutFinalizer (role : GCPRole) : GCPRole :=
  with_Meta role (RemoveFinalizer (Meta role) GCPRoleFinalizer).

Definition removeGCPRoleFinalizer (role : GCPRole) : M (option error) :=
  emit (ERemoveFinalizer (key_of (Namespace (Meta role)) (Name (Meta role)))) ;;;
  res <- Get (Namespace (Meta role)) (Name (Meta role)) ;;
  let '(m, err) := res in
  if IsNotFound err then ret None
  else
    match err, m with
    | Some e, _ => ret (Some (Base e))
    | None, None => ret None
    | None, Some m =>
        err <- PatchGCPRole m withoutFinalizer ;;
        ret (Base <$> err)
    end.

(** The world in which [removeGCPRoleFinalizer] reads the resource, and
    the world after the read. *)
Definition entered (role : GCPRole) (w : World) : World :=
  snd (emit (ERemoveFinalizer (key_of (Namespace (Meta role)) (Name (Meta role)))) w).

Definition read (role : GCPRole) (w : World) : World :=
  let key := key_of (Namespace (Meta role)) (Name (Meta role)) in
  called (EGet key (snd (Get_answer key (entered role w)))) (entered role w).

(** The variables of the loop in [runGCPRoleFinalizer]. [stopCh] holds
    the instant at which [time.After(timeout)] delivers its one value,
    until the value has been received. *)
Record loop_state := {
  stopCh : option nat;
  finalizationDone : bool;
  timeOutOccured : bool;
  attempt : nat
}.

(** The loop has not seen the timeout and [stopCh] will deliver at [d]; the
    loop has received from [stopCh]. *)
Definition armed (d : nat) (st : loop_state) : Prop :=
stopCh st = Some d /\ timeOutOccured st = false.

Definition fired (st : loop_state) : Prop :=
stopCh st = None /\ timeOutOccured st = true.

(** [select { case <-stopCh: timeOutOccured = true; default: }]
    The timer's value is taken to be in the channel from the instant [d]
    on. Between two passes the wait below has either received it or left
    the clock before [d], so this matters only for the first pass of a run
    with a timeout of zero, where Go may still take the default case. *)
Definition poll_stopCh (st : loop_state) : M loop_state :=
  w <- get_world ;;
  match stopCh st with
  | Some d =>
      if (d <=? now w)%nat then
        ret {| stopCh := None; finalizationDone := finalizationDone st;
               timeOutOccured := true; attempt := attempt st |}
      else ret st
  | None => ret st
  end.

(** [select { case <-stopCh: timeOutOccured = true; case <-time.After(interval): }]
    When both are due at the same instant either case may run; the next
    pass of the loop then receives from [stopCh] and breaks before any
    other action, so the two agree, and the first case is taken. *)
Definition wait_stopCh (interval : nat) (st : loop_state) : M loop_state :=
  w <- get_world ;;
  match stopCh st with
  | Some d =>
      if (d <=? now w + interval)%nat then
        set_now (Nat.max (now w) d) ;;;
        emit (EWait true) ;;;
        ret {| stopCh := None; finalizationDone := finalizationDone st;
               timeOutOccured := true; attempt := attempt st |}
      else
        set_now (now w + interval) ;;; emit (EWait false) ;;; ret st
  | None =>
      set_now (now w + interval) ;;; emit (EWait false) ;;; ret st
  end.

Definition set_finalizationDone (st : loop_state) (b : bool) : loop_state :=
  {| stopCh := stopCh st; finalizationDone := b;
     timeOutOccured := timeOutOccured st; attempt := attempt st |}.

Definition incr_attempt (st : loop_state) : loop_state :=
  {| stopCh := stopCh st; finalizationDone := finalizationDone st;
     timeOutOccured := timeOutOccured st; attempt := S (attempt st) |}.

(** [if !finalizationDone { ... }]: a client is made and the role is
    deleted through it; an error of either is logged and left for the
    next pass. *)
Definition tryFinalize (role : GCPRole) (st : loop_state) : M loop_state :=
  if negb (finalizationDone st) then
    err <- NewGCPRole ;;
    match err with
    | Some _ => ret st
    | None =>
        err <- finalizeGCPRole role ;;
        match err with
        | Some _ => ret st
        | None => ret (set_finalizationDone st true)
        end
    end
  else ret st.

(** [if finalizationDone { ... }]: the boolean says that the finalizer
    was removed, which ends the loop in a [break]. *)
Definition tryRemove (role : GCPRole) (st : loop_state) : M bool :=
  if finalizationDone st then
    err <- removeGCPRoleFinalizer role ;;
    match err with
    | Some _ => ret false
    | None => ret true
    end
  else ret false.

(** One pass of the [for] loop; the boolean says that the pass ended in
    a [break]. *)
Definition iteration (role : GCPRole) (interval : nat) (st : loop_state)
  : M (bool * loop_state) :=
  st <- poll_stopCh st ;;
  if timeOutOccured st then ret (true, st)
  else
    st <- tryFinalize role st ;;
    removed <- tryRemove role st ;;
    if (removed : bool) then ret (true, st)
    else
      st <- wait_stopCh interval st ;;
      ret (false, incr_attempt st).

(** The [for] loop. It has no bound of its own, so the model runs it on
    fuel; [None] says that the fuel ran out before a [break]. *)
Fixpoint loop (fuel : nat) (role : GCPRole) (interval : nat) (st : loop_state)
         (w : World) : option (loop_state * World) :=
  match fuel with
  | O => None
  | S fuel' =>
      let '((brk, st1), w1) := iteration role interval st w in
      if (brk : bool) then Some (st1, w1)
      else loop fuel' role interval st1 w1
  end.

(** The world after the registration, and the variables with which the loop
    starts there. *)
Definition registered (role : GCPRole) (w : World) : World :=
snd (Add (getGCPRoleId role) w).

Definition first_pass (role : GCPRole) (timeout : nat) (w : World) : loop_state :=
{| stopCh := Some (now (registered role w) + timeout); finalizationDone := false;
   timeOutOccured := false; attempt := 0 |}.

Definition runGCPRoleFinalizer (fuel : nat) (role : option GCPRole)
           (timeout interval : nat) (w : World) : option World :=
  match role with
  | None => Some w
  | Some role =>
      let id := getGCPRoleId role in
      let '(busy, w) := IsAlreadyProcessing id w in
      if (busy : bool) then Some w
      else
        let '(_, w) := Add id w in
        let st := {| stopCh := Some (now w + timeout);
                     finalizationDone := false;
                     timeOutOccured := false;
                     attempt := 0 |} in
        match loop fuel role interval st w with
        | None => None
        | Some (_, w) =>
            let '(_, w) := removeGCPRoleFinalizer role w in
            let '(_, w) := Delete id w in
            Some w
        end
  end.

End WithEnv.

(** [w'] comes after [w]: the registry is the same, the clock has not gone
    back, and the log has grown by events that [P] accepts. *)
Definition follows (P : event -> bool) (w w' : World) : Prop :=
  finalizerInfo w' = finalizerInfo w
  /\ now w <= now w'
  /\ exists evs, trace w' = trace w ++ evs /\ forallb P evs = true.

(** Every resource of the store is under the key of its own namespace and
    name. *)
Definition keyed (s : gmap string GCPRole) : Prop :=
forall k m, s !! k = Some m -> key_of (Namespace (Meta m)) (Name (Meta m)) = k.

(** *** A role, a world and two environments to run the controller in *)

Definition reader : GCPRole :=
  {| Meta := {| Name := "reader"; Namespace := "demo"; Generation := 3;
                DeletionTimestamp := Some 100;
                Finalizers := [GCPRoleFinalizer] |};
     Status := {| Phase := EmptyString; ObservedGeneration := 2;
                  Conditions := [] |} |}.

Definition world0 : World :=
  {| store := {[ "demo/reader" := reader ]}; finalizerInfo := ∅;
     now := 0; trace := [] |}.


Definition role_name (r : GCPRole) : string :=
  "k8s.-." +:+ Namespace (Meta r) +:+ "." +:+ Name (Meta r).

(** Every call goes through. *)
Definition calm : Env :=
  {| ResourceGCPRole := "gcproles"; RoleName := role_name;
     createRole := fun _ => None; newGCPRole := fun _ => None;
     deleteRole := fun _ => None; getFault := fun _ => None;
     patchFault := fun _ => None; latency := fun _ => 1 |}.

Definition unreachable : base_error :=
  {| reason := InternalError; message := "vault is unreachable" |}.

(** The backend is unreachable: every create and every delete fails. *)
Definition broken : Env :=
  {| ResourceGCPRole := "gcproles"; RoleName := role_name;
     createRole := fun _ => Some unreachable; newGCPRole := fun _ => None;
     deleteRole := fun _ => Some unreachable; getFault := fun _ => None;
     patchFault := fun _ => None; latency := fun _ => 1 |}.


(** *** [runGCPRoleInjector] *)

(** [core_util.AddFinalizer]: the token is appended unless it is there. *)
Definition AddFinalizer (m : ObjectMeta) (finalizer : string) : ObjectMeta :=
  if HasFinalizer m finalizer then m
  else {| Name := Name m; Namespace := Namespace m; Generation := Generation m;
          DeletionTimestamp := DeletionTimestamp m;
          Finalizers := Finalizers m ++ [finalizer] |}.

(** The mutator that [runGCPRoleInjector] hands to [PatchGCPRole]. *)
Definition withFinalizer (role : GCPRole) : GCPRole :=
  with_Meta role (AddFinalizer (Meta role) GCPRoleFinalizer).

(** The cache of the informer: the resources by key, and the error with
    which a lookup fails, if it does. *)
Record Informer := {
  indexer : gmap string GCPRole;
  indexerError : option base_error
}.

(** [c.gcpRoleInformer.GetIndexer().GetByKey(key)]: the object, whether it
    exists, and the error. *)
Definition GetByKey (inf : Informer) (key : string)
  : option GCPRole * bool * option base_error :=
  match indexerError inf with
  | Some e => (None, false, Some e)
  | None =>
      match indexer inf !! key with
      | Some obj => (Some obj, true, None)
      | None => (None, false, None)
      end
  end.

(** The delete attempts of a log. *)
Definition is_delete_attempt (e : event) : bool :=
  match e with
  | EDeleteRole _ _ => true
  | _ => false
  end.

Definition is_delete_success (e : event) : bool :=
  match e with
  | EDeleteRole _ None => true
  | _ => false
  end.


Section Injector.
Variable env : Env.

(** [runGCPRoleInjector]. Beside the error it returns, the model gives the
    role for which the call has launched [runGCPRoleFinalizer] as a
    goroutine, if it has launched one: the call does not wait for it. *)
Definition runGCPRoleInjector (inf : Informer) (key : string)
  : M (option error * option GCPRole) :=
  match GetByKey inf key with
  | (_, _, Some e) => ret (Some (Base e), None)
  | (_, false, None) => ret (None, None)
  | (None, true, None) => ret (None, None)
  | (Some obj, true, None) =>
      let role := obj in
      match DeletionTimestamp (Meta role) with
      | Some _ =>
          if HasFinalizer (Meta role) GCPRoleFinalizer
          then ret (None, Some role)
          else ret (None, None)
      | None =>
          err <- (if negb (HasFinalizer (Meta role) GCPRoleFinalizer)
                  then PatchGCPRole env role withFinalizer
                  else ret None) ;;
          match err with
          | Some e =>
              ret (Some (Wrap (Base e)
                           (Sprintf "failed to set GCPRole finalizer for %s/%s"
                              [Namespace (Meta role); Name (Meta role)])),
                   None)
          | None =>
              err <- NewGCPRole env ;;
              match err with
              | Some e => ret (Some (Base e), None)
              | None =>
                  err <- reconcileGCPRole env role ;;
                  match err with
                  | Some e =>
                      ret (Some (Wrap e
                                   (Sprintf "for GCPRole %s/%s:"
                                      [Namespace (Meta role); Name (Meta role)])),
                           None)
                  | None => ret (None, None)
                  end
              end
          end
      end
  end.

End Injector.

(** A role that is not marked for deletion and has no finalizer yet, the
    store that holds it, and the cache that has seen it. *)
Definition fresh : GCPRole :=
  {| Meta := {| Name := "writer"; Namespace := "demo"; Generation := 1;
                DeletionTimestamp := None; Finalizers := [] |};
     Status := {| Phase := EmptyString; ObservedGeneration := 0;
                  Conditions := [] |} |}.

Definition world_fresh : World :=
  {| store := {[ "demo/writer" := fresh ]}; finalizerInfo := ∅;
     now := 0; trace := [] |}.

Definition cache_fresh : Informer :=
  {| indexer := {[ "demo/writer" := fresh ]}; indexerError := None |}.

(** The cache that has seen [reader], which is marked for deletion. *)
Definition cache_reader : Informer :=
  {| indexer := {[ "demo/reader" := reader ]}; indexerError := None |}.

(** The store refuses every write. *)
Definition readonly : Env :=
  {| ResourceGCPRole := "gcproles"; RoleName := role_name;
     createRole := fun _ => None; newGCPRole := fun _ => None;
     deleteRole := fun _ => None; getFault := fun _ => None;
     patchFault := fun _ => Some "forbidden"; latency := fun _ => 1 |}.

(** The client of the backend cannot be made. *)
Definition adapterless : Env :=
  {| ResourceGCPRole := "gcproles"; RoleName := role_name;
     createRole := fun _ => None; newGCPRole := fun _ => Some unreachable;
     deleteRole := fun _ => None; getFault := fun _ => None;
     patchFault := fun _ => None; latency := fun _ => 1 |}.

(** The world in which the finalizer of [reader] is already running. *)
Definition world_busy : World :=
  {| store := {[ "demo/reader" := reader ]};
     finalizerInfo := {[ "gcproles/demo/reader" := true ]};
     now := 0; trace := [] |}.

End Controller.

(** * Properties *)

(** ** Splitting a text into lines *)

Section Lines.
Import GoString.

Lemma Split_nonempty (s : string) (sep : ascii) : Split s sep <> [].
Proof.
  destruct s as [|c s]; simpl; [discriminate|].
  destruct (Ascii.eqb c sep); [discriminate|].
  destruct (Split s sep); discriminate.
Qed.

(** A separator in the text ends one piece and starts the next. *)
Lemma Split_app_sep (a b : string) (sep : ascii) :
  Split (a +:+ String sep b) sep = Split a sep ++ Split b sep.
Proof.
  induction a as [|c a IH]; simpl.
  - now rewrite Ascii.eqb_refl.
  - destruct (Ascii.eqb c sep); [now rewrite IH|].
    rewrite IH. pose proof (Split_nonempty a sep) as Hne.
    destruct (Split a sep); [contradiction|reflexivity].
Qed.

Lemma Split_one_line (s : string) : one_line s = true -> Split s nl = [s].
Proof.
  induction s as [|c s IH]; simpl; [reflexivity|].
  intros [Hc Hs]%andb_prop.
  apply negb_true_iff in Hc. rewrite Hc, (IH Hs). reflexivity.
Qed.

Lemma Split_Join (p : string) (ps : list string) :
  Split (Join (p :: ps) NL) nl = concat (map (fun q => Split q nl) (p :: ps)).
Proof.
  revert p. induction ps as [|q ps IH]; intros p.
  - simpl. now rewrite app_nil_r.
  - change (Join (p :: q :: ps) NL) with (p +:+ String nl (Join (q :: ps) NL)).
    rewrite Split_app_sep, IH. reflexivity.
Qed.

Lemma last_app2 (l : list string) (a b d : string) : List.last (l ++ [a; b]) d = b.
Proof.
  change [a; b] with ([a] ++ [b]). rewrite app_assoc. apply List.last_last.
Qed.

Lemma removelast_app2 (l : list string) (a b : string) :
  List.removelast (l ++ [a; b]) = l ++ [a].
Proof.
  change [a; b] with ([a] ++ [b]). rewrite app_assoc. apply List.removelast_last.
Qed.

End Lines.

(** ** The storage configuration *)

Section StorageConfig.
Import GoString Core Etcd.

Lemma nonempty_true (s : string) : nonempty s = true <-> s <> EmptyString.
Proof.
  unfold nonempty. rewrite negb_true_iff. split.
  - intros H ->. discriminate.
  - intros H. destruct s; [contradiction|reflexivity].
Qed.

(** The parameters, field by field. *)
Lemma params_fields (o : Options) :
  params o =
    optional "address" (Address (spec o))
    ++ optional "etcd_api" (EtcdApi (spec o))
    ++ optional "path" (Path (spec o))
    ++ optional "discovery_srv" (DiscoverySrv (spec o))
    ++ [bool_line "ha_enabled" (HAEnable (spec o))]
    ++ [bool_line "sync" (Sync (spec o))]
    ++ (if nonempty (TLSSecretName (spec o)) then tls_lines else []).
Proof.
  unfold params, optional.
  destruct (HAEnable (spec o)), (Sync (spec o)); reflexivity.
Qed.

Lemma params_nonempty (o : Options) : params o <> [].
Proof.
  rewrite params_fields. intros H.
  do 4 (apply app_eq_nil in H; destruct H as [_ H]). discriminate.
Qed.

(** The text is the template around the joined parameters. *)
Lemma GetStorageConfig_text (o : Options) :
  fst (GetStorageConfig o) =
    String nl (header +:+ String nl (Join (params o) NL +:+ String nl ("}" +:+ NL))).
Proof. reflexivity. Qed.

Lemma Lines_GetStorageConfig (o : Options) :
  Lines (fst (GetStorageConfig o)) =
    EmptyString :: header :: concat (map (fun p => Split p nl) (params o)) ++ ["}"].
Proof.
  rewrite GetStorageConfig_text. unfold Lines.
  assert (Hs : Split (String nl (header +:+ String nl
                 (Join (params o) NL +:+ String nl ("}" +:+ NL)))) nl
               = (EmptyString :: header :: concat (map (fun p => Split p nl) (params o)))
                   ++ ["}"; EmptyString]).
  { pose proof (params_nonempty o) as Hne.
    destruct (params o) as [|p ps]; [contradiction|].
    change (Split (String nl ?x) nl) with (EmptyString :: Split x nl).
    rewrite !Split_app_sep, Split_Join. reflexivity. }
  rewrite Hs, last_app2, removelast_app2. reflexivity.
Qed.

(** A parameter without a line feed is a line of the text. *)
Lemma param_is_line (o : Options) (p : string) :
  In p (params o) -> one_line p = true -> In p (Lines (fst (GetStorageConfig o))).
Proof.
  intros Hin Hone. rewrite Lines_GetStorageConfig.
  right; right. apply in_or_app; left.
  apply in_concat. exists (Split p nl). split.
  - apply in_map_iff. now exists p.
  - rewrite (Split_one_line p Hone). now left.
Qed.

Lemma bool_line_one_line (key : string) (b : bool) :
  one_line key = true -> one_line (bool_line key b) = true.
Proof.
  intros Hk. unfold bool_line, field_line.
  induction key as [|c key IH]; simpl in *.
  - now destruct b.
  - apply andb_prop in Hk as [-> Hk]. simpl. now apply IH.
Qed.

End StorageConfig.

Section StorageConfigClaims.
Import GoString Core Etcd.

(** A field that is left out puts no parameter under its key. *)
Ltac no_param_with_prefix Hempty :=
  let p := fresh "p" in
  let Hin := fresh "Hin" in
  intros p Hin; rewrite params_fields in Hin;
  try rewrite Hempty in Hin; unfold optional, tls_lines, bool_line in Hin;
  simpl in Hin;
  repeat match type of Hin with
         | context [if ?b then _ else _] => destruct b
         end;
  simpl in Hin; intuition (subst; reflexivity).

Lemma omitted_Address (o : Options) :
  Address (spec o) = EmptyString ->
  forall p, In p (params o) -> HasPrefix p "address" = false.
Proof. intros Hempty. no_param_with_prefix Hempty. Qed.

Lemma omitted_EtcdApi (o : Options) :
  EtcdApi (spec o) = EmptyString ->
  forall p, In p (params o) -> HasPrefix p "etcd_api" = false.
Proof. intros Hempty. no_param_with_prefix Hempty. Qed.

Lemma omitted_Path (o : Options) :
  Path (spec o) = EmptyString ->
  forall p, In p (params o) -> HasPrefix p "path" = false.
Proof. intros Hempty. no_param_with_prefix Hempty. Qed.

Lemma omitted_DiscoverySrv (o : Options) :
  DiscoverySrv (spec o) = EmptyString ->
  forall p, In p (params o) -> HasPrefix p "discovery_srv" = false.
Proof. intros Hempty. no_param_with_prefix Hempty. Qed.

Lemma omitted_TLSSecretName (o : Options) :
  TLSSecretName (spec o) = EmptyString ->
  forall p, In p (params o) -> HasPrefix p "tls_" = false.
Proof. intros Hempty. no_param_with_prefix Hempty. Qed.

(** No parameter is an empty string. *)
Lemma params_not_blank (o : Options) :
  forall p, In p (params o) -> blank p = false.
Proof. no_param_with_prefix I. Qed.

(** The boolean lines are parameters whatever the spec. *)
Lemma ha_enabled_param (o : Options) :
  In (bool_line "ha_enabled" (HAEnable (spec o))) (params o).
Proof. rewrite params_fields, !in_app_iff. do 4 right. left. now left. Qed.

Lemma sync_param (o : Options) :
  In (bool_line "sync" (Sync (spec o))) (params o).
Proof. rewrite params_fields, !in_app_iff. do 5 right. left. now left. Qed.

End StorageConfigClaims.

Section StorageConfigText.
Import GoString Core Etcd.

(** C2: for the spec with Address = [http://etcd:2379], HAEnable = true,
    Sync = false and every other field empty, the text of
    [GetStorageConfig] has the lines [address = "http://etcd:2379"],
    [ha_enabled = "true"] and [sync = "false"], and no line of it begins
    with [tls_]. *)
Theorem C2_scenario_text :
  let lines := Lines (fst (GetStorageConfig scenario)) in
  In (field_line "address" "http://etcd:2379") lines
  /\ In (field_line "ha_enabled" "true") lines
  /\ In (field_line "sync" "false") lines
  /\ forallb (fun l => negb (HasPrefix l "tls_")) lines = true
  /\ Contains (fst (GetStorageConfig scenario)) "tls_" = false
  /\ snd (GetStorageConfig scenario) = None.
Proof.
  cbv zeta. rewrite Lines_GetStorageConfig.
  repeat split; vm_compute; tauto.
Qed.

End StorageConfigText.

(** ** The pod template *)

Section ApplyClaims.
Import GoString Core Etcd.

(** With a first container [Apply] returns, and this is the template it
    leaves. *)
Lemma Apply_returns (o : Options) (pt : PodTemplateSpec) (c0 : Container)
      (cs : list Container) :
  Containers (Spec pt) = c0 :: cs ->
  Apply o pt =
    Returned
      {| Labels := Labels pt;
         Spec :=
           {| Volumes :=
                Volumes (Spec pt)
                ++ (if nonempty (TLSSecretName (spec o)) then [tlsVolume o] else []);
              Containers :=
                {| ctr_Name := ctr_Name c0; ctr_Image := ctr_Image c0;
                   ctr_Args := ctr_Args c0;
                   ctr_Env :=
                     ctr_Env c0
                     ++ (if nonempty (CredentialSecretName (spec o))
                         then credentialEnv o else []);
                   ctr_VolumeMounts :=
                     ctr_VolumeMounts c0
                     ++ (if nonempty (TLSSecretName (spec o))
                         then [tlsVolumeMount] else []) |} :: cs |} |}
      None.
Proof.
  destruct pt as [lbl [vs ctrs]]. simpl. intros ->.
  unfold Apply, applyTLS, applyCredential, update_Containers0.
  destruct c0 as [n i a e m].
  destruct (nonempty (TLSSecretName (spec o))),
           (nonempty (CredentialSecretName (spec o)));
    simpl; rewrite ?app_nil_r; reflexivity.
Qed.

(** Without a container [Apply] panics as soon as a secret is named, and
    returns the template as it is otherwise. *)
Lemma Apply_no_container (o : Options) (pt : PodTemplateSpec) :
  Containers (Spec pt) = [] ->
  Apply o pt =
    if nonempty (TLSSecretName (spec o)) then
      Panicked (with_Volumes pt (Volumes (Spec pt) ++ [tlsVolume o]))
    else if nonempty (CredentialSecretName (spec o)) then Panicked pt
    else Returned pt None.
Proof.
  destruct pt as [lbl [vs ctrs]]. simpl. intros ->.
  unfold Apply, applyTLS, applyCredential, update_Containers0.
  destruct (nonempty (TLSSecretName (spec o))),
           (nonempty (CredentialSecretName (spec o))); reflexivity.
Qed.

Lemma Apply_no_secret (o : Options) (pt : PodTemplateSpec) :
  TLSSecretName (spec o) = EmptyString ->
  CredentialSecretName (spec o) = EmptyString ->
  Apply o pt = Returned pt None.
Proof.
  intros Ht Hc. unfold Apply, applyTLS, applyCredential. now rewrite Ht, Hc.
Qed.

Lemma tls_params (o : Options) :
  List.filter (fun p => HasPrefix p "tls_") (params o)
    = if nonempty (TLSSecretName (spec o)) then tls_lines else [].
Proof.
  rewrite params_fields. unfold optional, bool_line.
  repeat match goal with
         | |- context [if ?b then _ else _] => destruct b
         end; reflexivity.
Qed.

(** C3: for a spec with a TLS secret and a template with a first
    container, [Apply] appends one volume that names the secret and, to
    the first container, one read-only mount at
    [/etc/vault/storage/etcd/tls/], and [GetStorageConfig] has exactly the
    three parameters [tls_ca_file], [tls_cert_file] and [tls_key_file],
    on [ca.crt], [tls.crt] and [tls.key] under that path. Without a TLS
    secret the volumes and the mounts of every container are as before,
    whatever the template, and no parameter begins with [tls_]. *)
Theorem C3_tls_volume_mount_and_params (o : Options) (pt : PodTemplateSpec) :
  (TLSSecretName (spec o) <> EmptyString ->
   forall c0 cs, Containers (Spec pt) = c0 :: cs ->
   exists pt' c0',
     Apply o pt = Returned pt' None
     /\ Volumes (Spec pt')
        = Volumes (Spec pt)
          ++ [ {| vol_Name := "vault-etcd-tls";
                  vol_VolumeSource :=
                    {| Secret := Some {| SecretName := TLSSecretName (spec o) |} |} |} ]
     /\ Containers (Spec pt') = c0' :: cs
     /\ ctr_VolumeMounts c0'
        = ctr_VolumeMounts c0
          ++ [ {| mnt_Name := "vault-etcd-tls"; mnt_ReadOnly := true;
                  mnt_MountPath := "/etc/vault/storage/etcd/tls/" |} ]
     /\ List.filter (fun p => HasPrefix p "tls_") (params o)
        = [ field_line "tls_ca_file" "/etc/vault/storage/etcd/tls/ca.crt";
            field_line "tls_cert_file" "/etc/vault/storage/etcd/tls/tls.crt";
            field_line "tls_key_file" "/etc/vault/storage/etcd/tls/tls.key" ]
     /\ forall p, In p (List.filter (fun p => HasPrefix p "tls_") (params o)) ->
                  In p (Lines (fst (GetStorageConfig o))))
  /\ (TLSSecretName (spec o) = EmptyString ->
      Volumes (Spec (template_after (Apply o pt))) = Volumes (Spec pt)
      /\ map ctr_VolumeMounts (Containers (Spec (template_after (Apply o pt))))
         = map ctr_VolumeMounts (Containers (Spec pt))
      /\ List.filter (fun p => HasPrefix p "tls_") (params o) = []).
Proof.
  split.
  - intros Htls%nonempty_true c0 cs Hc.
    eexists _, _. split; [apply (Apply_returns o pt c0 cs Hc)|].
    rewrite tls_params, Htls. simpl.
    repeat split.
    intros p Hin. apply param_is_line.
    + eapply proj1. apply filter_In. rewrite tls_params, Htls. exact Hin.
    + simpl in Hin. intuition (subst; reflexivity).
  - intros Htls. rewrite tls_params.
    assert (Hn : nonempty (TLSSecretName (spec o)) = false) by now rewrite Htls.
    rewrite Hn. repeat split.
    + destruct (Containers (Spec pt)) as [|c0 cs] eqn:Hc.
      * rewrite (Apply_no_container o pt Hc), Hn.
        now destruct (nonempty (CredentialSecretName (spec o))).
      * rewrite (Apply_returns o pt c0 cs Hc), Hn. simpl. apply app_nil_r.
    + destruct (Containers (Spec pt)) as [|c0 cs] eqn:Hc.
      * rewrite (Apply_no_container o pt Hc), Hn.
        destruct (nonempty (CredentialSecretName (spec o))); simpl; now rewrite Hc.
      * rewrite (Apply_returns o pt c0 cs Hc), Hn. simpl. now rewrite app_nil_r.
Qed.

(** C3 at a spec with a TLS secret and a one-container template, and at
    the scenario spec, which has none. *)
Lemma C3_tls_witness :
  (exists pt' c0',
      Apply secured vault_template = Returned pt' None
      /\ Volumes (Spec pt') = [tlsVolume secured]
      /\ Containers (Spec pt') = [c0']
      /\ ctr_VolumeMounts c0' = [tlsVolumeMount])
  /\ Volumes (Spec (template_after (Apply scenario vault_template))) = [].
Proof.
  destruct (C3_tls_volume_mount_and_params secured vault_template) as [Hyes _].
  destruct (C3_tls_volume_mount_and_params scenario vault_template) as [_ Hno].
  split.
  - destruct (Hyes ltac:(discriminate) vault_container [] eq_refl)
      as (pt' & c0' & Happly & Hvol & Hctr & Hmnt & _).
    exists pt', c0'. repeat split; assumption.
  - apply (Hno eq_refl).
Defined.

(** C4: for a spec with a credential secret and a template with a first
    container, [Apply] appends to the environment of the first container
    the two bindings [ETCD_USERNAME] and [ETCD_PASSWORD], in this order,
    each with no literal value and with the key [username] and [password]
    of the named secret as its source; every other container and the
    rest of the first one apart from the TLS mount are as before. The
    configuration text does not depend on the credential secret. Without
    a credential secret the environment of every container is as
    before, whatever the template. *)
Theorem C4_credential_env (o : Options) (pt : PodTemplateSpec) :
  (CredentialSecretName (spec o) <> EmptyString ->
   forall c0 cs, Containers (Spec pt) = c0 :: cs ->
   exists pt' c0',
     Apply o pt = Returned pt' None
     /\ Containers (Spec pt') = c0' :: cs
     /\ ctr_Env c0'
        = ctr_Env c0
          ++ [ {| env_Name := "ETCD_USERNAME"; env_Value := EmptyString;
                  env_ValueFrom :=
                    Some {| SecretKeyRef :=
                              Some {| sel_Name := CredentialSecretName (spec o);
                                      sel_Key := "username" |} |} |};
               {| env_Name := "ETCD_PASSWORD"; env_Value := EmptyString;
                  env_ValueFrom :=
                    Some {| SecretKeyRef :=
                              Some {| sel_Name := CredentialSecretName (spec o);
                                      sel_Key := "password" |} |} |} ]
     /\ ctr_Name c0' = ctr_Name c0 /\ ctr_Image c0' = ctr_Image c0
     /\ ctr_Args c0' = ctr_Args c0
     /\ Labels pt' = Labels pt)
  /\ (forall name,
        GetStorageConfig (with_CredentialSecretName o name) = GetStorageConfig o)
  /\ (CredentialSecretName (spec o) = EmptyString ->
      map ctr_Env (Containers (Spec (template_after (Apply o pt))))
      = map ctr_Env (Containers (Spec pt))).
Proof.
  split; [|split].
  - intros Hcred%nonempty_true c0 cs Hc.
    eexists _, _. split; [apply (Apply_returns o pt c0 cs Hc)|].
    rewrite Hcred. simpl. repeat split.
  - intros name. destruct o as [[a e p d h s t c]]. reflexivity.
  - intros Hcred.
    assert (Hn : nonempty (CredentialSecretName (spec o)) = false) by now rewrite Hcred.
    destruct (Containers (Spec pt)) as [|c0 cs] eqn:Hc.
    + rewrite (Apply_no_container o pt Hc), Hn.
      destruct (nonempty (TLSSecretName (spec o))); simpl; now rewrite Hc.
    + rewrite (Apply_returns o pt c0 cs Hc), Hn. simpl. now rewrite app_nil_r.
Qed.

(** C4 at a spec with a credential secret and a one-container template,
    and at the scenario spec, which has none. *)
Lemma C4_credential_witness :
  (exists pt' c0',
      Apply secured vault_template = Returned pt' None
      /\ Containers (Spec pt') = [c0']
      /\ ctr_Env c0' = credentialEnv secured)
  /\ map ctr_Env (Containers (Spec (template_after (Apply scenario vault_template))))
     = [[]].
Proof.
  destruct (C4_credential_env secured vault_template) as (Hyes & _ & _).
  destruct (C4_credential_env scenario vault_template) as (_ & _ & Hno).
  split.
  - destruct (Hyes ltac:(discriminate) vault_container [] eq_refl)
      as (pt' & c0' & Happly & Hctr & Henv & _).
    exists pt', c0'. repeat split; assumption.
  - apply (Hno eq_refl).
Defined.

(** C10: [Apply] indexes the first container as soon as one of the two
    secrets is named, so on a template without a container it panics
    there; on a template with a container it returns, and what it returns
    is nil; with neither secret named it returns the template as it was. *)
Theorem C10_first_container_precondition (o : Options) (pt : PodTemplateSpec) :
  (TLSSecretName (spec o) <> EmptyString \/ CredentialSecretName (spec o) <> EmptyString ->
   Containers (Spec pt) = [] ->
   exists pt', Apply o pt = Panicked pt')
  /\ (Containers (Spec pt) <> [] ->
      exists pt', Apply o pt = Returned pt' None)
  /\ (TLSSecretName (spec o) = EmptyString ->
      CredentialSecretName (spec o) = EmptyString ->
      Apply o pt = Returned pt None).
Proof.
  split; [|split].
  - intros Hsecret Hc. rewrite (Apply_no_container o pt Hc).
    destruct Hsecret as [H%nonempty_true | H%nonempty_true]; rewrite H.
    + eauto.
    + destruct (nonempty (TLSSecretName (spec o))); eauto.
  - intros Hc. destruct (Containers (Spec pt)) as [|c0 cs] eqn:E; [contradiction|].
    eexists. apply (Apply_returns o pt c0 cs E).
  - apply Apply_no_secret.
Qed.

(** C10 on the template without a container, on the one-container
    template, and at the scenario spec, which names no secret. *)
Lemma C10_first_container_witness :
  (exists pt', Apply secured empty_template = Panicked pt')
  /\ (exists pt', Apply secured vault_template = Returned pt' None)
  /\ Apply scenario empty_template = Returned empty_template None.
Proof.
  destruct (C10_first_container_precondition secured empty_template) as (Hpanic & _ & _).
  destruct (C10_first_container_precondition secured vault_template) as (_ & Hret & _).
  destruct (C10_first_container_precondition scenario empty_template) as (_ & _ & Hsame).
  split; [|split].
  - apply Hpanic; [left; discriminate | reflexivity].
  - apply Hret; discriminate.
  - apply Hsame; reflexivity.
Defined.

End ApplyClaims.

(** ** The calls on the collaborators *)

Section Calls.
Import Controller.
Variable env : Env.

Lemma trace_called (ev : event) (w : World) :
  trace (called env ev w) = trace w ++ [ev].
Proof. reflexivity. Qed.

Lemma store_called (ev : event) (w : World) : store (called env ev w) = store w.
Proof. reflexivity. Qed.

Lemma trace_written (key : string) (m : GCPRole) (ev : event) (w : World) :
  trace (written env key m ev w) = trace w ++ [ev].
Proof. reflexivity. Qed.

Lemma store_written (key : string) (m : GCPRole) (ev : event) (w : World) :
  store (written env key m ev w) = <[key := m]> (store w).
Proof. reflexivity. Qed.

Lemma CreateRole_eq (w : World) :
  CreateRole env w
  = (createRole env (trace w), called env (ECreateRole (createRole env (trace w))) w).
Proof. reflexivity. Qed.

Lemma NewGCPRole_eq (w : World) :
  NewGCPRole env w
  = (newGCPRole env (trace w), called env (ENewGCPRole (newGCPRole env (trace w))) w).
Proof. reflexivity. Qed.

Lemma DeleteRole_eq (name : string) (w : World) :
  DeleteRole env name w
  = (deleteRole env (trace w),
     called env (EDeleteRole name (deleteRole env (trace w))) w).
Proof. reflexivity. Qed.

Lemma Get_eq (namespace name : string) (w : World) :
  let key := key_of namespace name in
  Get env namespace name w
  = (Get_answer env key w, called env (EGet key (snd (Get_answer env key w))) w).
Proof. reflexivity. Qed.

(** What a patch answers and leaves. *)
Lemma patch_eq (key : string) (ev : option base_error -> event)
      (transform : GCPRole -> GCPRole) (w : World) :
  patch env key ev transform w
  = match patchFault env (trace w) with
    | Some msg => (Some (transient msg), called env (ev (Some (transient msg))) w)
    | None =>
        match store w !! key with
        | Some cur => (None, written env key (transform cur) (ev None) w)
        | None => (Some (not_found key), called env (ev (Some (not_found key))) w)
        end
    end.
Proof.
  unfold patch, bind, get_world, elapse. simpl.
  destruct (patchFault env (trace w)); [reflexivity|].
  destruct (store w !! key); reflexivity.
Qed.

End Calls.

(** ** Reconciling a role *)

Section Reconcile.
Import Controller.
Variable env : Env.

Lemma reconcileGCPRole_eq (role : GCPRole) (w : World) :
  let key := key_of (Namespace (Meta role)) (Name (Meta role)) in
  let w1 := called env (ECreateRole (createRole env (trace w))) w in
  reconcileGCPRole env role w
  = match createRole env (trace w) with
    | Some e =>
        let '(err2, w2) :=
          patch env key (EUpdateGCPRoleStatus key)
                (fun cur => with_Status cur (failureStatus e (Status cur))) w1 in
        (NewAggregate [Base <$> err2; Some (Wrap (Base e) "failed to create role")], w2)
    | None =>
        let '(err, w2) :=
          patch env key (EUpdateGCPRoleStatus key)
                (fun cur => with_Status cur (successStatus role (Status cur))) w1 in
        (Base <$> err, w2)
    end.
Proof.
  cbv zeta. unfold reconcileGCPRole, bind at 1. rewrite CreateRole_eq.
  destruct (createRole env (trace w)); reflexivity.
Qed.

(** A status patch under [key], with the mutator [f], from the world [w1]:
    either it fails and the store is as before, or the resource is there
    and its status is replaced by [f] of it. *)
Lemma status_patch_cases (key : string) (f : GCPRoleStatus -> GCPRoleStatus)
      (w1 : World) :
  exists (err : option base_error) (w2 : World),
    patch env key (EUpdateGCPRoleStatus key)
          (fun cur => with_Status cur (f (Status cur))) w1 = (err, w2)
    /\ trace w2 = trace w1 ++ [EUpdateGCPRoleStatus key err]
    /\ finalizerInfo w2 = finalizerInfo w1
    /\ match err with
       | Some _ => store w2 = store w1
       | None =>
           exists cur,
             store w1 !! key = Some cur
             /\ store w2 = <[key := with_Status cur (f (Status cur))]> (store w1)
             /\ store w2 !! key = Some (with_Status cur (f (Status cur)))
       end.
Proof.
  rewrite patch_eq.
  destruct (patchFault env (trace w1)) as [msg|]; [eauto 10|].
  destruct (store w1 !! key) as [cur|] eqn:Hcur; [|eauto 10].
  eexists _, _. split; [reflexivity|]. repeat split.
  exists cur. repeat split. simpl. apply lookup_insert_eq.
Qed.

(** C5: when [CreateRole] fails with [e], [reconcileGCPRole] patches the
    status with the mutator that sets the condition list to the single
    condition (Failure, True, FailedToCreateRole, message of [e]), and
    returns an aggregate, never nil. When the store takes the patch, the
    stored resource has exactly this condition list, with its metadata as
    before, and the aggregate holds the wrapped error of the create alone.
    When the store fails the patch, or the resource is gone, the store is
    as before and the aggregate holds the error of the patch and the
    wrapped error of the create. In each case the log has the create and
    then the one status patch. *)
Theorem C5_create_failure (role : GCPRole) (w : World) (e : base_error) :
  createRole env (trace w) = Some e ->
  let key := key_of (Namespace (Meta role)) (Name (Meta role)) in
  let failure := {| cond_Type := ConditionFailure; cond_Status := ConditionTrue;
                    cond_Reason := "FailedToCreateRole";
                    cond_Message := message e |} in
  let wrapped := Wrap (Base e) "failed to create role" in
  (forall cur,
     patchFault env (trace w ++ [ECreateRole (Some e)]) = None ->
     store w !! key = Some cur ->
     exists w' m,
       reconcileGCPRole env role w = (Some (Aggregate [wrapped]), w')
       /\ trace w' = trace w ++ [ECreateRole (Some e); EUpdateGCPRoleStatus key None]
       /\ store w' = <[key := with_Status cur (failureStatus e (Status cur))]> (store w)
       /\ store w' !! key = Some m
       /\ Conditions (Status m) = [failure]
       /\ Meta m = Meta cur)
  /\ (forall msg,
        patchFault env (trace w ++ [ECreateRole (Some e)]) = Some msg ->
        exists w',
          reconcileGCPRole env role w
          = (Some (Aggregate [Base (transient msg); wrapped]), w')
          /\ trace w' = trace w ++ [ECreateRole (Some e);
                                    EUpdateGCPRoleStatus key (Some (transient msg))]
          /\ store w' = store w)
  /\ (patchFault env (trace w ++ [ECreateRole (Some e)]) = None ->
      store w !! key = None ->
      exists w',
        reconcileGCPRole env role w
        = (Some (Aggregate [Base (not_found key); wrapped]), w')
        /\ trace w' = trace w ++ [ECreateRole (Some e);
                                  EUpdateGCPRoleStatus key (Some (not_found key))]
        /\ store w' = store w).
Proof.
  intros Hcreate key failure wrapped.
  rewrite reconcileGCPRole_eq, Hcreate. fold key.
  rewrite patch_eq, trace_called, store_called.
  split; [|split].
  - intros cur -> ->. eexists _, _. split; [reflexivity|].
    rewrite trace_written, store_written, trace_called, store_called, <- app_assoc.
    split; [reflexivity|]. split; [reflexivity|].
    split; [apply lookup_insert_eq|]. now split.
  - intros msg ->. eexists. split; [reflexivity|].
    rewrite !trace_called, !store_called, <- app_assoc. now split.
  - intros -> ->. eexists. split; [reflexivity|].
    rewrite !trace_called, !store_called, <- app_assoc. now split.
Qed.

(** C6: when [CreateRole] succeeds, [reconcileGCPRole] patches the status
    with the mutator that empties the condition list, sets the phase to
    Success and the observed generation to the generation of the role. When
    the store takes the patch, the stored resource has exactly this status,
    with its metadata as before, and [reconcileGCPRole] returns nil. When
    the store fails the patch, or the resource is gone, the store is as
    before and the error of the patch is returned. In each case the log has
    the create and then the one status patch. *)
Theorem C6_create_success (role : GCPRole) (w : World) :
  createRole env (trace w) = None ->
  let key := key_of (Namespace (Meta role)) (Name (Meta role)) in
  (forall cur,
     patchFault env (trace w ++ [ECreateRole None]) = None ->
     store w !! key = Some cur ->
     exists w' m,
       reconcileGCPRole env role w = (None, w')
       /\ trace w' = trace w ++ [ECreateRole None; EUpdateGCPRoleStatus key None]
       /\ store w' = <[key := with_Status cur (successStatus role (Status cur))]> (store w)
       /\ store w' !! key = Some m
       /\ Conditions (Status m) = []
       /\ Phase (Status m) = "Success"
       /\ ObservedGeneration (Status m) = Generation (Meta role)
       /\ Meta m = Meta cur)
  /\ (forall msg,
        patchFault env (trace w ++ [ECreateRole None]) = Some msg ->
        exists w',
          reconcileGCPRole env role w = (Some (Base (transient msg)), w')
          /\ trace w' = trace w ++ [ECreateRole None;
                                    EUpdateGCPRoleStatus key (Some (transient msg))]
          /\ store w' = store w)
  /\ (patchFault env (trace w ++ [ECreateRole None]) = None ->
      store w !! key = None ->
      exists w',
        reconcileGCPRole env role w = (Some (Base (not_found key)), w')
        /\ trace w' = trace w ++ [ECreateRole None;
                                  EUpdateGCPRoleStatus key (Some (not_found key))]
        /\ store w' = store w).
Proof.
  intros Hcreate key.
  rewrite reconcileGCPRole_eq, Hcreate. fold key.
  rewrite patch_eq, trace_called, store_called.
  split; [|split].
  - intros cur -> ->. eexists _, _. split; [reflexivity|].
    rewrite trace_written, store_written, trace_called, store_called, <- app_assoc.
    split; [reflexivity|]. split; [reflexivity|].
    split; [apply lookup_insert_eq|]. now repeat split.
  - intros msg ->. eexists. split; [reflexivity|].
    rewrite !trace_called, !store_called, <- app_assoc. now split.
  - intros -> ->. eexists. split; [reflexivity|].
    rewrite !trace_called, !store_called, <- app_assoc. now split.
Qed.

End Reconcile.

(** C5 with an unreachable backend and a store that takes the patch: the
    stored role carries the one Failure condition. *)
Lemma C5_create_failure_witness :
  exists w' m,
    Controller.reconcileGCPRole Controller.broken Controller.reader Controller.world0
    = (Some (Controller.Aggregate
               [Controller.Wrap (Controller.Base Controller.unreachable)
                  "failed to create role"]), w')
    /\ Controller.store w' !! "demo/reader" = Some m
    /\ Controller.Conditions (Controller.Status m)
       = [ {| Controller.cond_Type := Controller.ConditionFailure;
              Controller.cond_Status := Controller.ConditionTrue;
              Controller.cond_Reason := "FailedToCreateRole";
              Controller.cond_Message := "vault is unreachable" |} ].
Proof.
  destruct (C5_create_failure Controller.broken Controller.reader Controller.world0
              Controller.unreachable eq_refl) as (Hpatched & _ & _).
  destruct (Hpatched Controller.reader eq_refl eq_refl)
    as (w' & m & Hrun & _ & _ & Hm & Hcond & _).
  exists w', m. repeat split; assumption.
Defined.

(** C6 with every call going through: the stored role has no condition,
    phase Success and the generation of the role as observed generation. *)
Lemma C6_create_success_witness :
  exists w' m,
    Controller.reconcileGCPRole Controller.calm Controller.reader Controller.world0
    = (None, w')
    /\ Controller.store w' !! "demo/reader" = Some m
    /\ Controller.Conditions (Controller.Status m) = []
    /\ Controller.Phase (Controller.Status m) = "Success"
    /\ Controller.ObservedGeneration (Controller.Status m) = 3%Z.
Proof.
  destruct (C6_create_success Controller.calm Controller.reader Controller.world0
              eq_refl) as (Hpatched & _ & _).
  destruct (Hpatched Controller.reader eq_refl eq_refl)
    as (w' & m & Hrun & _ & _ & Hm & Hcond & Hphase & Hgen & _).
  exists w', m. repeat split; assumption.
Defined.

(** ** Removing the finalizer token *)

Section RemoveFinalizer.
Import Controller.
Variable env : Env.

Lemma removeGCPRoleFinalizer_eq (role : GCPRole) (w : World) :
  let key := key_of (Namespace (Meta role)) (Name (Meta role)) in
  let ans := Get_answer env key (entered role w) in
  removeGCPRoleFinalizer env role w
  = if IsNotFound (snd ans) then (None, read env role w)
    else match snd ans, fst ans with
         | Some e, _ => (Some (Base e), read env role w)
         | None, None => (None, read env role w)
         | None, Some m =>
             let '(err, w3) := PatchGCPRole env m withoutFinalizer (read env role w) in
             (Base <$> err, w3)
         end.
Proof.
  cbv zeta. unfold removeGCPRoleFinalizer, bind at 1 2.
  change (emit (ERemoveFinalizer (key_of (Namespace (Meta role)) (Name (Meta role)))) w)
    with (tt, entered role w).
  cbv iota beta. rewrite Get_eq. cbv zeta. fold (read env role w).
  destruct (Get_answer env _ (entered role w)) as [m err]. simpl.
  destruct (IsNotFound err); [reflexivity|].
  destruct err; [reflexivity|]. destruct m; reflexivity.
Qed.

Lemma HasFinalizer_RemoveFinalizer (m : ObjectMeta) (f : string) :
  HasFinalizer (RemoveFinalizer m f) f = false.
Proof.
  unfold HasFinalizer, RemoveFinalizer. simpl.
  induction (Finalizers m) as [|x l IH]; simpl; [reflexivity|].
  destruct (String.eqb x f) eqn:E; simpl; [exact IH|].
  rewrite String.eqb_sym, E. exact IH.
Qed.



End RemoveFinalizer.


(** ** The finalization loop *)

Section Finalization.
Import Controller.
Variable env : Env.

Lemma follows_refl (P : event -> bool) (w : World) : follows P w w.
Proof.
  repeat split; [lia|]. exists []. now rewrite app_nil_r.
Qed.

Lemma follows_trans (P : event -> bool) (w1 w2 w3 : World) :
  follows P w1 w2 -> follows P w2 w3 -> follows P w1 w3.
Proof.
  intros (Hr1 & Hn1 & evs1 & Ht1 & Hp1) (Hr2 & Hn2 & evs2 & Ht2 & Hp2).
  repeat split; [congruence | lia |].
  exists (evs1 ++ evs2). split.
  - now rewrite Ht2, Ht1, app_assoc.
  - rewrite forallb_app, Hp1, Hp2. reflexivity.
Qed.

Lemma follows_weaken (P Q : event -> bool) (w w' : World) :
  (forall e, P e = true -> Q e = true) -> follows P w w' -> follows Q w w'.
Proof.
  intros HPQ (Hr & Hn & evs & Ht & Hp). repeat split; [assumption..|].
  exists evs. split; [assumption|].
  apply forallb_forall. intros e He. apply HPQ.
  now apply (proj1 (forallb_forall P evs) Hp).
Qed.

Lemma follows_called (P : event -> bool) (ev : event) (w : World) :
  P ev = true -> follows P w (called env ev w).
Proof.
  intros Hev. repeat split; simpl; [lia|].
  exists [ev]. split; [reflexivity|]. simpl. now rewrite Hev.
Qed.

Lemma follows_written (P : event -> bool) (key : string) (m : GCPRole)
      (ev : event) (w : World) :
  P ev = true -> follows P w (written env key m ev w).
Proof.
  intros Hev. repeat split; simpl; [lia|].
  exists [ev]. split; [reflexivity|]. simpl. now rewrite Hev.
Qed.

Lemma delete_event_loop_event (e : event) : delete_event e = true -> loop_event e = true.
Proof. unfold delete_event, loop_event. now intros [H _]%andb_prop. Qed.

(** [removeGCPRoleFinalizer] leaves the entry event and then the events of
    the read and, possibly, the patch. *)
Lemma removeGCPRoleFinalizer_log (role : GCPRole) (w : World) :
  let key := key_of (Namespace (Meta role)) (Name (Meta role)) in
  let w' := snd (removeGCPRoleFinalizer env role w) in
  finalizerInfo w' = finalizerInfo w
  /\ now w <= now w'
  /\ exists evs,
       trace w' = trace w ++ ERemoveFinalizer key :: evs
       /\ forallb (fun e => negb (is_registry e) && negb (is_removal_call e)) evs = true.
Proof.
  cbv zeta. rewrite removeGCPRoleFinalizer_eq. cbv zeta.
  set (key := key_of (Namespace (Meta role)) (Name (Meta role))).
  set (ans := Get_answer env key (entered role w)).
  assert (Hread : finalizerInfo (read env role w) = finalizerInfo w
                  /\ now w <= now (read env role w)
                  /\ trace (read env role w)
                     = trace w ++ [ERemoveFinalizer key; EGet key (snd ans)]).
  { unfold read. fold key. fold ans. simpl. rewrite <- app_assoc.
    repeat split. lia. }
  destruct Hread as (Hr & Hn & Ht).
  assert (Hdone : finalizerInfo (read env role w) = finalizerInfo w
                  /\ now w <= now (read env role w)
                  /\ exists evs,
                       trace (read env role w) = trace w ++ ERemoveFinalizer key :: evs
                       /\ forallb (fun e => negb (is_registry e)
                                            && negb (is_removal_call e)) evs = true).
  { repeat split; [assumption..|]. exists [EGet key (snd ans)]. now split. }
  destruct (IsNotFound (snd ans)); [exact Hdone|].
  destruct (snd ans) as [e|] eqn:Hans; [exact Hdone|].
  destruct (fst ans) as [m|]; [|exact Hdone].
  unfold PatchGCPRole. rewrite patch_eq.
  set (mkey := key_of (Namespace (Meta m)) (Name (Meta m))).
  destruct (patchFault env (trace (read env role w))) as [msg|];
    [|destruct (store (read env role w) !! mkey) as [cur|]];
    cbn [snd trace finalizerInfo now called written];
    rewrite Hr, Ht, <- app_assoc;
    (repeat split; [lia|]); eexists [_; _]; split; reflexivity.
Qed.

Lemma removeGCPRoleFinalizer_follows (role : GCPRole) (w : World) :
  follows loop_event w (snd (removeGCPRoleFinalizer env role w)).
Proof.
  destruct (removeGCPRoleFinalizer_log role w) as (Hr & Hn & evs & Ht & Hp).
  repeat split; [assumption..|].
  eexists. split; [exact Ht|]. simpl.
  apply forallb_forall. intros e He.
  apply (proj1 (forallb_forall _ evs) Hp) in He.
  now apply andb_prop in He as [He _].
Qed.

End Finalization.

Section FinalizationLoop.
Import Controller.
Variable env : Env.
Variable role : GCPRole.
Variable interval : nat.

Lemma poll_stopCh_eq (st : loop_state) (w : World) :
  poll_stopCh st w
  = (match stopCh st with
     | Some d =>
         if (d <=? now w)%nat
         then {| stopCh := None; finalizationDone := finalizationDone st;
                 timeOutOccured := true; attempt := attempt st |}
         else st
     | None => st
     end, w).
Proof.
  unfold poll_stopCh, bind, get_world.
  destruct (stopCh st) as [d|]; [|reflexivity].
  destruct (d <=? now w)%nat; reflexivity.
Qed.

Lemma tryFinalize_eq (st : loop_state) (w : World) :
  tryFinalize env role st w
  = if finalizationDone st then (st, w)
    else
      let w1 := called env (ENewGCPRole (newGCPRole env (trace w))) w in
      match newGCPRole env (trace w) with
      | Some _ => (st, w1)
      | None =>
          let w2 := called env (EDeleteRole (RoleName env role)
                                  (deleteRole env (trace w1))) w1 in
          match deleteRole env (trace w1) with
          | Some _ => (st, w2)
          | None => (set_finalizationDone st true, w2)
          end
      end.
Proof.
  unfold tryFinalize. destruct (finalizationDone st); [reflexivity|].
  cbn [negb]. unfold finalizeGCPRole, bind. rewrite NewGCPRole_eq.
  destruct (newGCPRole env (trace w)); [reflexivity|].
  rewrite DeleteRole_eq. cbv zeta.
  destruct (deleteRole env _); reflexivity.
Qed.

(** The first block of a pass leaves the timeout alone, touches neither the
    registry nor the finalizer token, and cannot mark the role as deleted
    when the delete fails. *)
Lemma tryFinalize_spec (st : loop_state) (w : World) :
  let r := tryFinalize env role st w in
  follows delete_event w (snd r)
  /\ store (snd r) = store w
  /\ stopCh (fst r) = stopCh st
  /\ timeOutOccured (fst r) = timeOutOccured st
  /\ (finalizationDone st = true -> finalizationDone (fst r) = true)
  /\ ((forall tr, deleteRole env tr <> None) ->
      finalizationDone st = false -> finalizationDone (fst r) = false).
Proof.
  cbv zeta. rewrite tryFinalize_eq.
  destruct (finalizationDone st) eqn:Hdone.
  - split; [apply follows_refl|]. simpl; repeat split; try reflexivity; congruence.
  - cbv zeta.
    set (w1 := called env (ENewGCPRole (newGCPRole env (trace w))) w).
    assert (H1 : follows delete_event w w1) by now apply follows_called.
    destruct (newGCPRole env (trace w)) as [e|].
    + split; [exact H1|]. simpl; repeat split; try reflexivity; congruence.
    + set (w2 := called env (EDeleteRole _ (deleteRole env (trace w1))) w1).
      assert (H2 : follows delete_event w w2).
      { eapply follows_trans; [exact H1|]. now apply follows_called. }
      destruct (deleteRole env (trace w1)) as [e|] eqn:Hdel.
      * split; [exact H2|]. simpl; repeat split; try reflexivity; congruence.
      * split; [exact H2|]. simpl; repeat split; try reflexivity; try congruence.
Qed.

(** The second block does nothing while the role is not deleted, and never
    touches the registry. *)
Lemma tryRemove_spec (st : loop_state) (w : World) :
  let r := tryRemove env role st w in
  follows loop_event w (snd r)
  /\ (finalizationDone st = false -> r = (false, w)).
Proof.
  cbv zeta. unfold tryRemove.
  destruct (finalizationDone st); [|split; [apply follows_refl | reflexivity]].
  split; [|discriminate].
  unfold bind. pose proof (removeGCPRoleFinalizer_follows env role w) as H.
  destruct (removeGCPRoleFinalizer env role w) as [[e|] w1]; exact H.
Qed.

Lemma wait_stopCh_eq (st : loop_state) (w : World) :
  wait_stopCh interval st w
  = let waited :=
      {| store := store w; finalizerInfo := finalizerInfo w;
         now := now w + interval; trace := trace w ++ [EWait false] |} in
    match stopCh st with
    | Some d =>
        if (d <=? now w + interval)%nat then
          ({| stopCh := None; finalizationDone := finalizationDone st;
              timeOutOccured := true; attempt := attempt st |},
           {| store := store w; finalizerInfo := finalizerInfo w;
              now := Nat.max (now w) d; trace := trace w ++ [EWait true] |})
        else (st, waited)
    | None => (st, waited)
    end.
Proof.
  unfold wait_stopCh, bind, get_world.
  destruct (stopCh st) as [d|]; [|reflexivity].
  destruct (d <=? now w + interval)%nat; reflexivity.
Qed.

(** The wait at the end of a pass: when the timeout is due first the loop
    receives it, otherwise the clock moves on by the interval and stays
    before the timeout. *)
Lemma wait_stopCh_spec (st : loop_state) (w : World) (d : nat) :
  armed d st ->
  let r := wait_stopCh interval st w in
  follows delete_event w (snd r)
  /\ store (snd r) = store w
  /\ finalizationDone (fst r) = finalizationDone st
  /\ (fired (fst r)
      \/ (armed d (fst r) /\ now w + interval <= now (snd r) /\ now (snd r) < d)).
Proof.
  intros [Hch Hto]. cbv zeta. rewrite wait_stopCh_eq. cbv zeta.
  rewrite Hch. destruct (d <=? now w + interval)%nat eqn:Hdue.
  - simpl. split; [|split; [reflexivity | split; [reflexivity | left; now split]]].
    split; [reflexivity | split; [simpl; lia|]].
    exists [EWait true]. now split.
  - apply Nat.leb_gt in Hdue. simpl.
    split; [|split; [reflexivity | split; [reflexivity | right]]].
    + split; [reflexivity | split; [simpl; lia|]].
      exists [EWait false]. now split.
    + split; [now split | simpl; lia].
Qed.

Lemma iteration_eq (st : loop_state) (w : World) :
  iteration env role interval st w
  = let st1 := fst (poll_stopCh st w) in
    if timeOutOccured st1 then ((true, st1), w)
    else
      let '(st2, w2) := tryFinalize env role st1 w in
      let '(removed, w3) := tryRemove env role st2 w2 in
      if (removed : bool) then ((true, st2), w3)
      else
        let '(st4, w4) := wait_stopCh interval st2 w3 in
        ((false, incr_attempt st4), w4).
Proof.
  unfold iteration, bind at 1. rewrite poll_stopCh_eq. cbv zeta. cbn [fst].
  destruct (timeOutOccured _); [reflexivity|].
  unfold bind at 1. destruct (tryFinalize env role _ w) as [st2 w2].
  unfold bind at 1. destruct (tryRemove env role st2 w2) as [[|] w3]; [reflexivity|].
  unfold bind. destruct (wait_stopCh interval st2 w3) as [st4 w4]. reflexivity.
Qed.

(** A pass that starts after the timeout was received breaks at once. *)
Lemma iteration_fired (st : loop_state) (w : World) :
  fired st -> iteration env role interval st w = ((true, st), w).
Proof.
  intros [Hch Hto]. rewrite iteration_eq, poll_stopCh_eq. cbv zeta. cbn [fst].
  now rewrite Hch, Hto.
Qed.

(** A pass that starts before the timeout was received. *)
Lemma iteration_armed (st : loop_state) (w : World) (d : nat) :
  armed d st ->
  let r := iteration env role interval st w in
  follows loop_event w (snd r)
  /\ (d <= now w -> fst (fst r) = true)
  /\ (fst (fst r) = false ->
      fired (snd (fst r))
      \/ (armed d (snd (fst r)) /\ now w + interval <= now (snd r) /\ now (snd r) < d))
  /\ ((forall tr, deleteRole env tr <> None) ->
      finalizationDone st = false ->
      finalizationDone (snd (fst r)) = false
      /\ follows delete_event w (snd r)
      /\ store (snd r) = store w
      /\ (fst (fst r) = true -> timeOutOccured (snd (fst r)) = true)).
Proof.
  intros [Hch Hto]. cbv zeta. rewrite iteration_eq, poll_stopCh_eq. cbv zeta. cbn [fst].
  rewrite Hch. destruct (d <=? now w)%nat eqn:Hdue.
  - cbn [timeOutOccured fst snd].
    split; [apply follows_refl|]. split; [reflexivity|]. split; [discriminate|].
    intros _ Hdone. cbn. split; [exact Hdone|].
    split; [apply follows_refl|]. now split.
  - apply Nat.leb_gt in Hdue. rewrite Hto.
    pose proof (tryFinalize_spec st w) as (Hf1 & Hs1 & Hch1 & Hto1 & _ & Hfail1).
    destruct (tryFinalize env role st w) as [st2 w2]. cbn [fst snd] in *.
    pose proof (tryRemove_spec st2 w2) as (Hf2 & Hno2).
    destruct (tryRemove env role st2 w2) as [removed w3]. cbn [fst snd] in *.
    assert (Hf13 : follows loop_event w w3).
    { eapply follows_trans; [|exact Hf2].
      eapply follows_weaken; [apply delete_event_loop_event | exact Hf1]. }
    destruct removed.
    + cbn [fst snd]. split; [exact Hf13|]. split; [lia|]. split; [discriminate|].
      intros Hfail Hdone. specialize (Hfail1 Hfail Hdone).
      specialize (Hno2 Hfail1). discriminate.
    + assert (Harmed2 : armed d st2) by (split; congruence).
      pose proof (wait_stopCh_spec st2 w3 d Harmed2) as (Hf4 & Hs4 & Hd4 & Hnext).
      destruct (wait_stopCh interval st2 w3) as [st4 w4]. cbn [fst snd] in *.
      split; [|split; [lia|split]].
      * eapply follows_trans; [exact Hf13|].
        eapply follows_weaken; [apply delete_event_loop_event | exact Hf4].
      * intros _. destruct Hnext as [Hfired | (Ha & Hn1 & Hn2)]; [now left|right].
        split; [exact Ha|]. split; [|exact Hn2].
        destruct Hf13 as (_ & Hle & _). lia.
      * intros Hfail Hdone. specialize (Hfail1 Hfail Hdone).
        specialize (Hno2 Hfail1). injection Hno2 as ->.
        split; [cbn; congruence|]. split; [|split; [congruence | discriminate]].
        eapply follows_trans; [exact Hf1 | exact Hf4].
Qed.

Lemma loop_S (fuel : nat) (st : loop_state) (w : World) :
  loop env (S fuel) role interval st w
  = let '((brk, st1), w1) := iteration env role interval st w in
    if (brk : bool) then Some (st1, w1) else loop env fuel role interval st1 w1.
Proof. reflexivity. Qed.

(** With a positive interval the loop breaks: every pass that does not
    break moves the clock by the interval at least, towards the timeout. *)
Lemma loop_terminates (d : nat) :
  0 < interval ->
  forall (n : nat) (st : loop_state) (w : World),
    fired st \/ (armed d st /\ d - now w <= n) ->
    exists st' w', loop env (S (S n)) role interval st w = Some (st', w').
Proof.
  intros Hpos. induction n as [|n IH]; intros st w [Hf | [Ha Hn]].
  - rewrite loop_S, (iteration_fired st w Hf). eauto.
  - rewrite loop_S.
    pose proof (iteration_armed st w d Ha) as (_ & Hbrk & _).
    destruct (iteration env role interval st w) as [[brk st1] w1].
    cbn [fst snd] in Hbrk. rewrite Hbrk by lia. eauto.
  - rewrite loop_S, (iteration_fired st w Hf). eauto.
  - rewrite loop_S.
    pose proof (iteration_armed st w d Ha) as (_ & _ & Hnext & _).
    destruct (iteration env role interval st w) as [[brk st1] w1].
    cbn [fst snd] in Hnext. destruct brk; [eauto|].
    apply IH. destruct (Hnext eq_refl) as [Hf | (Ha1 & Hn1 & Hn2)]; [now left|].
    right. split; [exact Ha1 | lia].
Qed.

(** The loop leaves the registry alone. *)
Lemma loop_follows (d : nat) :
  forall (fuel : nat) (st st' : loop_state) (w w' : World),
    fired st \/ armed d st ->
    loop env fuel role interval st w = Some (st', w') ->
    follows loop_event w w'.
Proof.
  induction fuel as [|fuel IH]; intros st st' w w' Hst Hrun; [discriminate|].
  rewrite loop_S in Hrun. destruct Hst as [Hf | Ha].
  - rewrite (iteration_fired st w Hf) in Hrun. injection Hrun as _ <-.
    apply follows_refl.
  - pose proof (iteration_armed st w d Ha) as (Hfol & _ & Hnext & _).
    destruct (iteration env role interval st w) as [[brk st1] w1].
    cbn [fst snd] in *. destruct brk.
    + injection Hrun as _ <-. exact Hfol.
    + eapply follows_trans; [exact Hfol|].
      apply (IH st1 st' w1 w'); [|exact Hrun].
      destruct (Hnext eq_refl) as [Hf | (Ha1 & _)]; [now left | now right].
Qed.

(** While every delete fails the loop makes no attempt on the finalizer
    token, leaves the store alone, and ends by the timeout. *)
Lemma loop_all_deletes_fail (d : nat) :
  (forall tr, deleteRole env tr <> None) ->
  forall (fuel : nat) (st st' : loop_state) (w w' : World),
    fired st \/ armed d st ->
    finalizationDone st = false ->
    loop env fuel role interval st w = Some (st', w') ->
    follows delete_event w w'
    /\ store w' = store w
    /\ timeOutOccured st' = true
    /\ finalizationDone st' = false.
Proof.
  intros Hfail.
  induction fuel as [|fuel IH]; intros st st' w w' Hst Hdone Hrun; [discriminate|].
  rewrite loop_S in Hrun. destruct Hst as [Hf | Ha].
  - rewrite (iteration_fired st w Hf) in Hrun. injection Hrun as <- <-.
    split; [apply follows_refl|]. split; [reflexivity|]. split; [apply Hf | exact Hdone].
  - pose proof (iteration_armed st w d Ha) as (_ & _ & Hnext & Hall).
    specialize (Hall Hfail Hdone).
    destruct (iteration env role interval st w) as [[brk st1] w1].
    cbn [fst snd] in *. destruct Hall as (Hdone1 & Hfol & Hstore & Hto).
    destruct brk.
    + injection Hrun as <- <-.
      split; [exact Hfol|]. split; [exact Hstore|]. split; [now apply Hto | exact Hdone1].
    + destruct (IH st1 st' w1 w') as (Hfol' & Hstore' & Hto' & Hdone'); [|exact Hdone1|exact Hrun|].
      { destruct (Hnext eq_refl) as [Hf | (Ha1 & _)]; [now left | now right]. }
      split; [eapply follows_trans; eassumption|].
      split; [congruence|]. now split.
Qed.

End FinalizationLoop.

(** ** A run of the finalizer *)

Section RunFinalizer.
Import Controller.
Variable env : Env.
Variable role : GCPRole.
Variable timeout interval : nat.

Lemma runGCPRoleFinalizer_eq (fuel : nat) (w : World) :
  finalizerInfo w !! getGCPRoleId env role = None ->
  runGCPRoleFinalizer env fuel (Some role) timeout interval w
  = match loop env fuel role interval (first_pass env role timeout w) (registered env role w) with
    | None => None
    | Some (_, w1) =>
        Some (snd (Delete (getGCPRoleId env role)
                     (snd (removeGCPRoleFinalizer env role w1))))
    end.
Proof.
  intros Hfree. unfold runGCPRoleFinalizer, IsAlreadyProcessing, bind, get_world, ret.
  rewrite Hfree. rewrite bool_decide_eq_false_2 by (intros [x Hx]; discriminate).
  change (Add (getGCPRoleId env role) w) with (tt, registered env role w).
  cbv iota beta. fold (first_pass env role timeout w).
  destruct (loop env fuel role interval (first_pass env role timeout w) (registered env role w)) as [[st1 w1]|];
    [|reflexivity].
  destruct (removeGCPRoleFinalizer env role w1) as [err w2].
  reflexivity.
Qed.

Lemma registered_eq (w : World) :
  finalizerInfo (registered env role w) = <[getGCPRoleId env role := true]> (finalizerInfo w)
  /\ trace (registered env role w) = trace w ++ [ERegistryAdd (getGCPRoleId env role)]
  /\ store (registered env role w) = store w
  /\ now (registered env role w) = now w.
Proof. now repeat split. Qed.

Lemma first_pass_armed (w : World) : armed (now (registered env role w) + timeout) (first_pass env role timeout w).
Proof. now split. Qed.

(** With a positive interval a run that registers ends. *)
Lemma runGCPRoleFinalizer_terminates (w : World) :
  finalizerInfo w !! getGCPRoleId env role = None ->
  0 < interval ->
  exists w', runGCPRoleFinalizer env (S (S timeout)) (Some role) timeout interval w = Some w'.
Proof.
  intros Hfree Hpos. rewrite (runGCPRoleFinalizer_eq _ w Hfree).
  destruct (loop_terminates env role interval (now (registered env role w) + timeout) Hpos
              timeout (first_pass env role timeout w) (registered env role w)) as (st1 & w1 & Hloop).
  { right. split; [apply first_pass_armed | lia]. }
  rewrite Hloop. eauto.
Qed.

(** C7: a run of the finalizer that registers the id of the role (the id
    was not in the registry) ends when the interval is positive, and however
    it ends, by the removal of the finalizer, by the timeout, after any
    failures of the delete or of the store, the last thing it does is to
    delete the id from the registry: the log of the run is the registration,
    then events of the loop and of the last removal attempt, none of them
    on the registry, then the deletion, and the id is not in the registry
    of the final world. *)
Theorem C7_registry_entry_removed (w : World) :
  let id := getGCPRoleId env role in
  finalizerInfo w !! id = None ->
  (0 < interval ->
   exists fuel w', runGCPRoleFinalizer env fuel (Some role) timeout interval w = Some w')
  /\ (forall fuel w',
        runGCPRoleFinalizer env fuel (Some role) timeout interval w = Some w' ->
        finalizerInfo w' !! id = None
        /\ finalizerInfo w' = finalizerInfo w
        /\ exists evs,
             trace w' = trace w ++ [ERegistryAdd id] ++ evs ++ [ERegistryDelete id]
             /\ forallb loop_event evs = true).
Proof.
  intros id Hfree. split.
  - intros Hpos. exists (S (S timeout)).
    now apply runGCPRoleFinalizer_terminates.
  - intros fuel w' Hrun. rewrite (runGCPRoleFinalizer_eq _ w Hfree) in Hrun.
    destruct (loop env fuel role interval (first_pass env role timeout w) (registered env role w))
      as [[st1 w1]|] eqn:Hloop; [|discriminate].
    injection Hrun as <-.
    pose proof (loop_follows env role interval _ _ _ _ _ _
                  (or_intror (first_pass_armed w)) Hloop) as (Hr1 & _ & evs1 & Ht1 & Hp1).
    pose proof (removeGCPRoleFinalizer_follows env role w1) as (Hr2 & _ & evs2 & Ht2 & Hp2).
    destruct (registered_eq w) as (Hr0 & Ht0 & _).
    subst id. cbn [finalizerInfo trace].
    rewrite Hr2, Hr1, Hr0. split; [apply lookup_delete_eq|].
    split; [now apply delete_insert_id|].
    exists (evs1 ++ evs2). split.
    + rewrite Ht2, Ht1, Ht0. now rewrite <- !app_assoc.
    + now rewrite forallb_app, Hp1, Hp2.
Qed.

Lemma removal_calls_app (tr1 tr2 : list event) :
  removal_calls (tr1 ++ tr2) = removal_calls tr1 + removal_calls tr2.
Proof. unfold removal_calls. now rewrite List.filter_app, List.length_app. Qed.

Lemma removal_calls_none (P : event -> bool) (evs : list event) :
  (forall e, P e = true -> is_removal_call e = false) ->
  forallb P evs = true -> removal_calls evs = 0.
Proof.
  intros HP. unfold removal_calls. induction evs as [|e evs IH]; [reflexivity|].
  simpl. intros [He Hevs]%andb_prop. rewrite (HP e He). now apply IH.
Qed.

Lemma delete_event_not_removal_call (e : event) :
  delete_event e = true -> is_removal_call e = false.
Proof. now destruct e. Qed.

(** When the store answers, the resource that [removeGCPRoleFinalizer]
    leaves under the key of the role, if there is one, has no finalizer
    token. *)
Lemma removeGCPRoleFinalizer_removes (w1 : World) :
  keyed (store w1) ->
  (forall tr, getFault env tr = None) ->
  (forall tr, patchFault env tr = None) ->
  forall m,
    store (snd (removeGCPRoleFinalizer env role w1))
      !! key_of (Namespace (Meta role)) (Name (Meta role)) = Some m ->
    HasFinalizer (Meta m) GCPRoleFinalizer = false.
Proof.
  intros Hkeyed Hget Hpatch m. rewrite removeGCPRoleFinalizer_eq. cbv zeta.
  set (key := key_of (Namespace (Meta role)) (Name (Meta role))).
  unfold Get_answer. rewrite Hget.
  change (store (entered role w1)) with (store w1).
  destruct (store w1 !! key) as [cur|] eqn:Hcur.
  - cbn [snd fst IsNotFound]. unfold PatchGCPRole. rewrite patch_eq, Hpatch.
    rewrite (Hkeyed key cur Hcur).
    change (store (read env role w1)) with (store w1). rewrite Hcur.
    cbn [snd]. rewrite store_written, lookup_insert_eq. intros [= <-].
    apply HasFinalizer_RemoveFinalizer.
  - cbn [snd fst IsNotFound not_found reason].
    change (store (read env role w1)) with (store w1). rewrite Hcur. discriminate.
Qed.

(** C8: when every delete fails, a run of the finalizer that registers the
    id of the role still ends, for a positive interval: the loop breaks by
    the timeout. The log of the run is the registration, then the attempts
    and the waits of the loop, with no attempt on the finalizer token among
    them, then one entry into [removeGCPRoleFinalizer] with its read and
    patch, then the deletion from the registry. So the removal of the
    finalizer is entered exactly once, the id is not in the registry of the
    final world, and, when the store answers, the resource it holds under
    the key of the role has no finalizer token. *)
Theorem C8_timeout_forces_removal (w : World) :
  let id := getGCPRoleId env role in
  let key := key_of (Namespace (Meta role)) (Name (Meta role)) in
  finalizerInfo w !! id = None ->
  0 < interval ->
  (forall tr, deleteRole env tr <> None) ->
  (exists fuel w', runGCPRoleFinalizer env fuel (Some role) timeout interval w = Some w')
  /\ (forall fuel w',
        runGCPRoleFinalizer env fuel (Some role) timeout interval w = Some w' ->
        (exists attempts removal,
            trace w' = trace w ++ [ERegistryAdd id] ++ attempts
                         ++ [ERemoveFinalizer key] ++ removal ++ [ERegistryDelete id]
            /\ forallb delete_event attempts = true
            /\ forallb (fun e => negb (is_registry e) && negb (is_removal_call e))
                       removal = true)
        /\ removal_calls (trace w') = S (removal_calls (trace w))
        /\ finalizerInfo w' !! id = None
        /\ (keyed (store w) ->
            (forall tr, getFault env tr = None) ->
            (forall tr, patchFault env tr = None) ->
            forall m, store w' !! key = Some m ->
                      HasFinalizer (Meta m) GCPRoleFinalizer = false)).
Proof.
  intros id key Hfree Hpos Hfail. split.
  - exists (S (S timeout)). now apply runGCPRoleFinalizer_terminates.
  - intros fuel w' Hrun. rewrite (runGCPRoleFinalizer_eq _ w Hfree) in Hrun.
    destruct (loop env fuel role interval (first_pass env role timeout w) (registered env role w))
      as [[st1 w1]|] eqn:Hloop; [|discriminate].
    injection Hrun as <-.
    destruct (loop_all_deletes_fail env role interval _ Hfail _ _ _ _ _
                (or_intror (first_pass_armed w)) eq_refl Hloop)
      as ((Hr1 & _ & evs1 & Ht1 & Hp1) & Hs1 & _).
    pose proof (removeGCPRoleFinalizer_log env role w1) as (Hr2 & _ & evs2 & Ht2 & Hp2).
    destruct (registered_eq w) as (Hr0 & Ht0 & Hs0 & _).
    subst id. cbn [finalizerInfo trace store]. fold key in Ht2.
    assert (Htrace : trace (snd (removeGCPRoleFinalizer env role w1))
                       ++ [ERegistryDelete (getGCPRoleId env role)]
                     = trace w ++ [ERegistryAdd (getGCPRoleId env role)] ++ evs1
                         ++ [ERemoveFinalizer key] ++ evs2
                         ++ [ERegistryDelete (getGCPRoleId env role)]).
    { rewrite Ht2, Ht1, Ht0. rewrite <- !app_assoc. reflexivity. }
    split; [|split; [|split]].
    + exists evs1, evs2. now repeat split.
    + rewrite Htrace, !removal_calls_app.
      rewrite (removal_calls_none _ evs1 delete_event_not_removal_call Hp1).
      rewrite (removal_calls_none _ evs2) with (2 := Hp2)
        by (intros e [_ He]%andb_prop; now apply negb_true_iff in He).
      cbn. lia.
    + rewrite Hr2, Hr1, Hr0. apply lookup_delete_eq.
    + intros Hkeyed Hget Hpatch m. apply removeGCPRoleFinalizer_removes; try assumption.
      now rewrite Hs1, Hs0.
Qed.

End RunFinalizer.

(** C7 on the role of the store, with a timeout of thirty and an interval of
    five, when every call goes through. *)
Lemma C7_registry_entry_removed_witness :
  exists fuel w',
    Controller.runGCPRoleFinalizer Controller.calm fuel (Some Controller.reader) 30 5
      Controller.world0 = Some w'
    /\ Controller.finalizerInfo w'
         !! Controller.getGCPRoleId Controller.calm Controller.reader = None.
Proof.
  destruct (C7_registry_entry_removed Controller.calm Controller.reader 30 5
              Controller.world0 eq_refl) as [Hends Hall].
  destruct (Hends (Nat.lt_0_succ 4)) as (fuel & w' & Hrun).
  exists fuel, w'. split; [exact Hrun|]. apply (Hall fuel w' Hrun).
Defined.

(** C8 on the same role when the backend is unreachable. *)
Lemma C8_timeout_forces_removal_witness :
  exists fuel w',
    Controller.runGCPRoleFinalizer Controller.broken fuel (Some Controller.reader) 30 5
      Controller.world0 = Some w'
    /\ Controller.removal_calls (Controller.trace w') = 1
    /\ Controller.finalizerInfo w'
         !! Controller.getGCPRoleId Controller.broken Controller.reader = None.
Proof.
  destruct (C8_timeout_forces_removal Controller.broken Controller.reader 30 5
              Controller.world0 eq_refl (Nat.lt_0_succ 4)
              ltac:(intros tr; discriminate)) as [(fuel & w' & Hrun) Hall].
  exists fuel, w'. split; [exact Hrun|].
  destruct (Hall fuel w' Hrun) as (_ & Hcalls & Hreg & _). split; assumption.
Defined.

(** * Further properties *)

(** ** Substrings *)

Section Substrings.
Import GoString.

Lemma Contains_unfold (s sub : string) :
  Contains s sub
  = HasPrefix s sub
    || match s with
       | EmptyString => false
       | String _ rest => Contains rest sub
       end.
Proof. now destruct s. Qed.

Lemma HasPrefix_nil (s : string) : HasPrefix s EmptyString = true.
Proof. now destruct s. Qed.

Lemma HasPrefix_app_l (a b sub : string) :
  HasPrefix a sub = true -> HasPrefix (a +:+ b) sub = true.
Proof.
  revert a. induction sub as [|c sub IH]; intros a; [intros _; apply HasPrefix_nil|].
  destruct a as [|x a]; simpl; [discriminate|].
  intros [Hc Hrest]%andb_prop. rewrite Hc. simpl. now apply IH.
Qed.

Lemma HasPrefix_refl_app (s t : string) : HasPrefix (s +:+ t) s = true.
Proof.
  induction s as [|c s IH]; simpl; [apply HasPrefix_nil|].
  now rewrite Ascii.eqb_refl.
Qed.

Lemma Contains_app_l (a b sub : string) :
  Contains a sub = true -> Contains (a +:+ b) sub = true.
Proof.
  induction a as [|c a IH].
  - simpl. rewrite orb_false_r. intros H. rewrite Contains_unfold.
    apply orb_true_iff. left. destruct sub; [apply HasPrefix_nil | discriminate].
  - rewrite (Contains_unfold (String c a)), (Contains_unfold (String c a +:+ b)).
    intros [H|H]%orb_true_iff; apply orb_true_iff.
    + left. now apply (HasPrefix_app_l (String c a)).
    + right. now apply IH.
Qed.

Lemma Contains_app_r (a b sub : string) :
  Contains b sub = true -> Contains (a +:+ b) sub = true.
Proof.
  intros H. induction a as [|c a IH]; [exact H|].
  simpl. rewrite IH. apply orb_true_r.
Qed.

Lemma Contains_self_app (s t : string) : Contains (s +:+ t) s = true.
Proof. rewrite Contains_unfold, HasPrefix_refl_app. reflexivity. Qed.

(** An element of a joined list is a substring of the result. *)
Lemma Contains_Join (ps : list string) (sep p : string) :
  In p ps -> Contains (Join ps sep) p = true.
Proof.
  induction ps as [|q ps IH]; [contradiction|].
  intros [->|Hin].
  - destruct ps as [|r ps].
    + simpl. rewrite Contains_unfold.
      assert (H : HasPrefix p p = true).
      { clear. induction p as [|c p IH]; simpl; [reflexivity|].
        now rewrite Ascii.eqb_refl. }
      now rewrite H.
    + change (Join (p :: r :: ps) sep) with (p +:+ sep +:+ Join (r :: ps) sep).
      apply Contains_self_app.
  - destruct ps as [|r ps]; [contradiction|].
    change (Join (q :: r :: ps) sep) with (q +:+ sep +:+ Join (r :: ps) sep).
    apply Contains_app_r, Contains_app_r. now apply IH.
Qed.

Lemma one_line_app (a b : string) :
  one_line (a +:+ b) = one_line a && one_line b.
Proof.
  induction a as [|c a IH]; simpl; [reflexivity|].
  now rewrite IH, andb_assoc.
Qed.

End Substrings.

(** ** More on the storage configuration *)

Section StorageConfigMore.
Import GoString Core Etcd.

Lemma field_line_one_line (key value : string) :
  one_line key = true -> one_line value = true ->
  one_line (field_line key value) = true.
Proof.
  intros Hk Hv. unfold field_line. rewrite !one_line_app, Hk, Hv. reflexivity.
Qed.

Lemma concat_Split_one_line (ps : list string) :
  (forall p, In p ps -> one_line p = true) ->
  concat (map (fun p => Split p nl) ps) = ps.
Proof.
  induction ps as [|p ps IH]; intros H; [reflexivity|].
  simpl. rewrite (Split_one_line p) by (apply H; now left).
  simpl. f_equal. apply IH. intros q Hq. apply H. now right.
Qed.

Lemma params_one_line (o : Options) :
  one_line (Address (spec o)) = true ->
  one_line (EtcdApi (spec o)) = true ->
  one_line (Path (spec o)) = true ->
  one_line (DiscoverySrv (spec o)) = true ->
  forall p, In p (params o) -> one_line p = true.
Proof.
  intros Ha He Hp Hd p Hin. rewrite params_fields in Hin.
  unfold optional, tls_lines, bool_line in Hin.
  repeat match type of Hin with
         | context [if ?b then _ else _] => destruct b
         end;
    simpl in Hin; intuition (subst; try reflexivity; now apply field_line_one_line).
Qed.

Definition present (value : string) : nat := if nonempty value then 1 else 0.

(** The layout of the text. When no string field of the spec holds a line
    feed, the lines of the text of [GetStorageConfig] are, in this order:
    the empty line with which the template opens, [storage "etcd" {], the
    lines of the fields that are present, in the order address, etcd_api,
    path, discovery_srv, then the ha_enabled line, the sync line, the three
    TLS lines when a TLS secret is named, and the closing brace; so the
    text has five lines, one more for each string field that is present,
    and three more with a TLS secret. *)
Theorem X1_text_layout (o : Options) :
  one_line (Address (spec o)) = true ->
  one_line (EtcdApi (spec o)) = true ->
  one_line (Path (spec o)) = true ->
  one_line (DiscoverySrv (spec o)) = true ->
  Lines (fst (GetStorageConfig o))
  = EmptyString :: header ::
      (optional "address" (Address (spec o))
       ++ optional "etcd_api" (EtcdApi (spec o))
       ++ optional "path" (Path (spec o))
       ++ optional "discovery_srv" (DiscoverySrv (spec o))
       ++ [bool_line "ha_enabled" (HAEnable (spec o))]
       ++ [bool_line "sync" (Sync (spec o))]
       ++ (if nonempty (TLSSecretName (spec o)) then tls_lines else []))
      ++ ["}"]
  /\ List.length (Lines (fst (GetStorageConfig o)))
     = 5 + present (Address (spec o)) + present (EtcdApi (spec o))
       + present (Path (spec o)) + present (DiscoverySrv (spec o))
       + (if nonempty (TLSSecretName (spec o)) then 3 else 0).
Proof.
  intros Ha He Hp Hd.
  rewrite Lines_GetStorageConfig,
    (concat_Split_one_line _ (params_one_line o Ha He Hp Hd)), params_fields.
  split; [reflexivity|].
  unfold optional, present, tls_lines.
  destruct (nonempty (Address (spec o))), (nonempty (EtcdApi (spec o))),
    (nonempty (Path (spec o))), (nonempty (DiscoverySrv (spec o))),
    (nonempty (TLSSecretName (spec o))); reflexivity.
Qed.

Lemma X1_text_layout_witness :
  List.length (Lines (fst (GetStorageConfig secured))) = 10.
Proof.
  destruct (X1_text_layout secured eq_refl eq_refl eq_refl eq_refl) as [_ Hlen].
  exact Hlen.
Defined.

Lemma param_in_text (o : Options) (p : string) :
  In p (params o) -> Contains (fst (GetStorageConfig o)) p = true.
Proof.
  intros Hin. rewrite GetStorageConfig_text.
  apply (Contains_app_r NL), (Contains_app_r header), (Contains_app_r NL).
  apply Contains_app_l. now apply Contains_Join.
Qed.

(** The values go into the text as they are. Each string field that is
    present is a parameter [key = "value"] with the value of the spec
    between the quotes, unchanged whatever characters it holds, and the
    text contains this parameter. *)
Theorem X2_present_fields_verbatim (o : Options) :
  (Address (spec o) <> EmptyString ->
   In (field_line "address" (Address (spec o))) (params o)
   /\ Contains (fst (GetStorageConfig o))
        (field_line "address" (Address (spec o))) = true)
  /\ (EtcdApi (spec o) <> EmptyString ->
      In (field_line "etcd_api" (EtcdApi (spec o))) (params o)
      /\ Contains (fst (GetStorageConfig o))
           (field_line "etcd_api" (EtcdApi (spec o))) = true)
  /\ (Path (spec o) <> EmptyString ->
      In (field_line "path" (Path (spec o))) (params o)
      /\ Contains (fst (GetStorageConfig o))
           (field_line "path" (Path (spec o))) = true)
  /\ (DiscoverySrv (spec o) <> EmptyString ->
      In (field_line "discovery_srv" (DiscoverySrv (spec o))) (params o)
      /\ Contains (fst (GetStorageConfig o))
           (field_line "discovery_srv" (DiscoverySrv (spec o))) = true).
Proof.
  assert (Hall : forall p, In p (params o) ->
                   In p (params o) /\ Contains (fst (GetStorageConfig o)) p = true).
  { intros p Hin. split; [exact Hin | now apply param_in_text]. }
  split; [|split; [|split]]; intros Hv%nonempty_true; apply Hall;
    rewrite params_fields; unfold optional; rewrite Hv, !in_app_iff; simpl; tauto.
Qed.

Lemma X2_present_fields_witness :
  Contains (fst (GetStorageConfig secured)) (field_line "address" "https://etcd:2379")
  = true.
Proof.
  destruct (X2_present_fields_verbatim secured) as (Haddr & _).
  apply Haddr. discriminate.
Defined.

(** The text does not carry the name of the TLS secret: two specs that
    differ only in the name of the TLS secret, both with one, have the same
    text. *)
Theorem X3_tls_secret_name_not_in_text (o : Options) (name : string) :
  TLSSecretName (spec o) <> EmptyString ->
  name <> EmptyString ->
  GetStorageConfig (with_TLSSecretName o name) = GetStorageConfig o.
Proof.
  intros Ho%nonempty_true Hn%nonempty_true.
  unfold GetStorageConfig, params. cbn [spec with_TLSSecretName TLSSecretName
    Address EtcdApi Path DiscoverySrv HAEnable Sync].
  now rewrite Ho, Hn.
Qed.

Lemma X3_tls_secret_name_witness :
  GetStorageConfig (with_TLSSecretName secured "another") = GetStorageConfig secured.
Proof.
  apply (X3_tls_secret_name_not_in_text secured "another"); discriminate.
Defined.

End StorageConfigMore.

(** ** Fields that are left out *)

Section OmittedFields.
Import GoString Core Etcd.

Lemma append_assoc (a b c : string) : (a +:+ b) +:+ c = a +:+ (b +:+ c).
Proof.
  induction a as [|x a IH]; [reflexivity|].
  change (String x ((a +:+ b) +:+ c) = String x (a +:+ (b +:+ c))). now rewrite IH.
Qed.

Lemma two_line_feeds_cons (c : ascii) (s : string) :
  Ascii.eqb c nl = false -> two_line_feeds (String c s) = two_line_feeds s.
Proof.
  intros Hc. unfold two_line_feeds. rewrite Contains_unfold.
  change (HasPrefix (String c s) (NL +:+ NL))
    with (Ascii.eqb nl c && HasPrefix s NL).
  destruct (Ascii.eqb nl c) eqn:E; [|reflexivity].
  apply Ascii.eqb_eq in E. subst c. now rewrite Ascii.eqb_refl in Hc.
Qed.

(** A line and its line feed before a text that has no empty line and does
    not open with a line feed. *)
Lemma two_line_feeds_line (p rest : string) :
  one_line p = true ->
  two_line_feeds rest = false -> HasPrefix rest NL = false ->
  two_line_feeds (p +:+ String nl rest) = false.
Proof.
  intros Hp Hrest Hopen. induction p as [|c p IH].
  - change (EmptyString +:+ String nl rest) with (String nl rest).
    unfold two_line_feeds in *. rewrite Contains_unfold.
    change (HasPrefix (String nl rest) (NL +:+ NL))
      with (Ascii.eqb nl nl && HasPrefix rest NL).
    now rewrite Hopen, Hrest, andb_false_r.
  - cbn in Hp. apply andb_prop in Hp as [Hc Hp]. apply negb_true_iff in Hc.
    change (String c p +:+ String nl rest) with (String c (p +:+ String nl rest)).
    rewrite (two_line_feeds_cons c _ Hc). now apply IH.
Qed.

Lemma line_opens_without_line_feed (p x : string) :
  one_line p = true -> blank p = false -> HasPrefix (p +:+ x) NL = false.
Proof.
  destruct p as [|c p]; [discriminate|]. cbn. intros [Hc _]%andb_prop _.
  apply negb_true_iff in Hc.
  change (HasPrefix (String c p +:+ x) NL)
    with (Ascii.eqb nl c && HasPrefix (p +:+ x) EmptyString).
  destruct (Ascii.eqb nl c) eqn:E; [|reflexivity].
  apply Ascii.eqb_eq in E. subst c. now rewrite Ascii.eqb_refl in Hc.
Qed.

(** Lines that are not empty, joined by line feeds, leave no empty line. *)
Lemma Join_two_line_feeds (ps : list string) (tail : string) :
  ps <> [] ->
  (forall p, In p ps -> one_line p = true /\ blank p = false) ->
  two_line_feeds tail = false -> HasPrefix tail NL = false ->
  two_line_feeds (Join ps NL +:+ String nl tail) = false
  /\ HasPrefix (Join ps NL +:+ String nl tail) NL = false.
Proof.
  intros Hne Hps Htail Hopen. induction ps as [|p ps IH]; [contradiction|].
  destruct (Hps p (or_introl eq_refl)) as [Hp Hb].
  destruct ps as [|q ps].
  - cbn [Join]. split; [now apply two_line_feeds_line|].
    now apply line_opens_without_line_feed.
  - change (Join (p :: q :: ps) NL) with (p +:+ String nl (Join (q :: ps) NL)).
    rewrite append_assoc.
    change (String nl (Join (q :: ps) NL) +:+ String nl tail)
      with (String nl (Join (q :: ps) NL +:+ String nl tail)).
    destruct IH as [IH1 IH2]; [discriminate | intros r Hr; apply Hps; now right |].
    split; [now apply two_line_feeds_line|].
    now apply line_opens_without_line_feed.
Qed.

Lemma params_expected (o : Options) : params o = expected_lines o.
Proof.
  rewrite params_fields. unfold expected_lines, present_fields, string_fields, optional.
  cbn [List.filter snd fst].
  destruct (nonempty (Address (spec o))), (nonempty (EtcdApi (spec o))),
    (nonempty (Path (spec o))), (nonempty (DiscoverySrv (spec o))); reflexivity.
Qed.

Lemma text_without_empty_line (o : Options) :
  one_line (Address (spec o)) = true ->
  one_line (EtcdApi (spec o)) = true ->
  one_line (Path (spec o)) = true ->
  one_line (DiscoverySrv (spec o)) = true ->
  two_line_feeds (fst (GetStorageConfig o)) = false.
Proof.
  intros Ha He Hp Hd. rewrite GetStorageConfig_text.
  destruct (Join_two_line_feeds (params o) ("}" +:+ NL)) as [Hin Hopen];
    [apply params_nonempty | | reflexivity | reflexivity |].
  { intros p Hin. split; [now apply (params_one_line o) | now apply (params_not_blank o)]. }
  unfold two_line_feeds. rewrite Contains_unfold.
  change (HasPrefix (String nl ?x) (NL +:+ NL)) with (Ascii.eqb nl nl && HasPrefix x NL).
  rewrite (line_opens_without_line_feed header) by reflexivity.
  rewrite andb_false_r, orb_false_l.
  now apply (two_line_feeds_line header).
Qed.

(** C1: for every storage spec the text of [GetStorageConfig] has a line
    [ha_enabled = "true"] or [ha_enabled = "false"] and a line
    [sync = "true"] or [sync = "false"], following the two flags. A string
    field that is left out (address, etcd_api, path, discovery_srv, the TLS
    secret) contributes no output: the text is, character for character,
    the template around the lines of the fields that are present, the two
    boolean lines and the TLS lines, joined by single line feeds; no
    parameter stands under the key of a field that is left out, and no
    parameter is empty. So a field that is left out leaves no blank line:
    when no value holds a line feed, and in particular when every optional
    field is left out, the text has no two line feeds in a row, and with
    every optional field left out it is the line feed with which the
    template opens, the opening line of the block, the two boolean lines
    and the closing brace. *)
Theorem C1_explicit_booleans_and_omitted_fields (o : Options) :
  let text := fst (GetStorageConfig o) in
  snd (GetStorageConfig o) = None
  /\ In (bool_line "ha_enabled" (HAEnable (spec o))) (Lines text)
  /\ In (bool_line "sync" (Sync (spec o))) (Lines text)
  /\ text = expected_text o
  /\ (forall key value, In (key, value) (present_fields o) -> value <> EmptyString)
  /\ (Address (spec o) = EmptyString ->
      forall p, In p (params o) -> HasPrefix p "address" = false)
  /\ (EtcdApi (spec o) = EmptyString ->
      forall p, In p (params o) -> HasPrefix p "etcd_api" = false)
  /\ (Path (spec o) = EmptyString ->
      forall p, In p (params o) -> HasPrefix p "path" = false)
  /\ (DiscoverySrv (spec o) = EmptyString ->
      forall p, In p (params o) -> HasPrefix p "discovery_srv" = false)
  /\ (TLSSecretName (spec o) = EmptyString ->
      forall p, In p (params o) -> HasPrefix p "tls_" = false)
  /\ (forall p, In p (params o) -> blank p = false)
  /\ (one_line (Address (spec o)) = true -> one_line (EtcdApi (spec o)) = true ->
      one_line (Path (spec o)) = true -> one_line (DiscoverySrv (spec o)) = true ->
      two_line_feeds text = false)
  /\ (Address (spec o) = EmptyString -> EtcdApi (spec o) = EmptyString ->
      Path (spec o) = EmptyString -> DiscoverySrv (spec o) = EmptyString ->
      TLSSecretName (spec o) = EmptyString ->
      text = NL +:+ header +:+ NL
               +:+ bool_line "ha_enabled" (HAEnable (spec o)) +:+ NL
               +:+ bool_line "sync" (Sync (spec o)) +:+ NL +:+ "}" +:+ NL
      /\ two_line_feeds text = false).
Proof.
  cbv zeta. split; [reflexivity|].
  split; [apply param_is_line; [apply ha_enabled_param | now apply bool_line_one_line]|].
  split; [apply param_is_line; [apply sync_param | now apply bool_line_one_line]|].
  split; [rewrite GetStorageConfig_text, params_expected; reflexivity|].
  split.
  { intros key value [_ Hv]%filter_In. now apply nonempty_true. }
  split; [apply omitted_Address|].
  split; [apply omitted_EtcdApi|].
  split; [apply omitted_Path|].
  split; [apply omitted_DiscoverySrv|].
  split; [apply omitted_TLSSecretName|].
  split; [apply params_not_blank|].
  split; [apply text_without_empty_line|].
  intros Ha He Hp Hd Ht. split.
  - rewrite GetStorageConfig_text, params_fields, Ha, He, Hp, Hd, Ht.
    now destruct (HAEnable (spec o)), (Sync (spec o)).
  - apply text_without_empty_line; [now rewrite Ha | now rewrite He
                                    | now rewrite Hp | now rewrite Hd].
Qed.

(** C1 at the spec with every optional field left out and both flags off,
    and at the spec with both secrets. *)
Lemma C1_explicit_booleans_witness :
  (fst (GetStorageConfig (bare false false))
   = NL +:+ header +:+ NL +:+ bool_line "ha_enabled" false +:+ NL
        +:+ bool_line "sync" false +:+ NL +:+ "}" +:+ NL
   /\ two_line_feeds (fst (GetStorageConfig (bare false false))) = false)
  /\ two_line_feeds (fst (GetStorageConfig secured)) = false
  /\ (forall p, In p (params secured) -> HasPrefix p "path" = false).
Proof.
  destruct (C1_explicit_booleans_and_omitted_fields (bare false false))
    as (_ & _ & _ & _ & _ & _ & _ & _ & _ & _ & _ & _ & Hbare).
  destruct (C1_explicit_booleans_and_omitted_fields secured)
    as (_ & _ & _ & _ & _ & _ & _ & Hpath & _ & _ & _ & Hlines & _).
  split; [|split].
  - apply Hbare; reflexivity.
  - apply Hlines; reflexivity.
  - apply Hpath; reflexivity.
Defined.

End OmittedFields.

(** ** More on the pod template *)

Section ApplyMore.
Import GoString Core Etcd.

(** What [Apply] adds for a spec: volumes, mounts and environment. *)
Definition added_volumes (o : Options) : list Volume :=
  if nonempty (TLSSecretName (spec o)) then [tlsVolume o] else [].

Definition added_mounts (o : Options) : list VolumeMount :=
  if nonempty (TLSSecretName (spec o)) then [tlsVolumeMount] else [].

Definition added_env (o : Options) : list EnvVar :=
  if nonempty (CredentialSecretName (spec o)) then credentialEnv o else [].

(** [Apply] only appends. On a template with a first container it keeps the
    labels, the volumes that were there, the other containers, and the
    name, image, arguments, environment and mounts of the first container,
    and puts what it adds behind what was there: at most one volume, one
    mount and two environment variables. *)
Theorem X4_Apply_only_appends (o : Options) (pt : PodTemplateSpec)
        (c0 : Container) (cs : list Container) :
  Containers (Spec pt) = c0 :: cs ->
  exists pt' c0',
    Apply o pt = Returned pt' None
    /\ Labels pt' = Labels pt
    /\ Volumes (Spec pt') = Volumes (Spec pt) ++ added_volumes o
    /\ Containers (Spec pt') = c0' :: cs
    /\ ctr_Name c0' = ctr_Name c0
    /\ ctr_Image c0' = ctr_Image c0
    /\ ctr_Args c0' = ctr_Args c0
    /\ ctr_Env c0' = ctr_Env c0 ++ added_env o
    /\ ctr_VolumeMounts c0' = ctr_VolumeMounts c0 ++ added_mounts o
    /\ List.length (added_volumes o) <= 1
    /\ List.length (added_mounts o) <= 1
    /\ List.length (added_env o) <= 2.
Proof.
  intros Hc. eexists _, _. split; [apply (Apply_returns o pt c0 cs Hc)|].
  cbn. do 8 (split; [reflexivity|]).
  unfold added_volumes, added_mounts, added_env.
  destruct (nonempty (TLSSecretName (spec o))),
    (nonempty (CredentialSecretName (spec o))); cbn; repeat split; lia.
Qed.

Lemma X4_Apply_only_appends_witness :
  exists pt',
    Apply secured vault_template = Returned pt' None
    /\ Labels pt' = Labels vault_template.
Proof.
  destruct (X4_Apply_only_appends secured vault_template vault_container [] eq_refl)
    as (pt' & c0' & Happly & Hlabels & _).
  exists pt'. split; assumption.
Defined.

(** [Apply] is not idempotent. Applied to its own result it appends once
    more: the template then has the TLS volume twice, under the same name,
    the first container has the TLS mount twice and the two credential
    variables twice, so the second result differs from the first as soon as
    a secret is named. *)
Theorem X5_Apply_twice_appends_twice (o : Options) (pt : PodTemplateSpec)
        (c0 : Container) (cs : list Container) :
  Containers (Spec pt) = c0 :: cs ->
  exists pt1 pt2 c2,
    Apply o pt = Returned pt1 None
    /\ Apply o pt1 = Returned pt2 None
    /\ Volumes (Spec pt2) = Volumes (Spec pt) ++ added_volumes o ++ added_volumes o
    /\ Containers (Spec pt2) = c2 :: cs
    /\ ctr_VolumeMounts c2 = ctr_VolumeMounts c0 ++ added_mounts o ++ added_mounts o
    /\ ctr_Env c2 = ctr_Env c0 ++ added_env o ++ added_env o
    /\ (TLSSecretName (spec o) <> EmptyString
        \/ CredentialSecretName (spec o) <> EmptyString -> pt2 <> pt1).
Proof.
  intros Hc. eexists _, _, _.
  split; [apply (Apply_returns o pt c0 cs Hc)|].
  split; [apply Apply_returns; reflexivity|].
  fold (added_volumes o) (added_mounts o) (added_env o). cbn.
  rewrite <- !app_assoc. repeat split.
  intros Hsecret Heq. injection Heq as Hvol Henv Hmnt.
  apply (f_equal (@List.length _)) in Hvol, Henv, Hmnt.
  rewrite !List.length_app in Hvol, Henv, Hmnt.
  unfold added_volumes, added_env in *.
  destruct Hsecret as [H%nonempty_true | H%nonempty_true]; rewrite H in *;
    cbn in *; lia.
Qed.

Lemma X5_Apply_twice_witness :
  exists pt1 pt2,
    Apply secured vault_template = Returned pt1 None
    /\ Apply secured pt1 = Returned pt2 None
    /\ Volumes (Spec pt2) = [tlsVolume secured; tlsVolume secured].
Proof.
  destruct (X5_Apply_twice_appends_twice secured vault_template vault_container []
              eq_refl) as (pt1 & pt2 & c2 & H1 & H2 & Hvol & _).
  exists pt1, pt2. repeat split; assumption.
Defined.

(** [Apply] on a template without a container. With a TLS secret the panic
    comes after the volume was appended, so the template is left with a
    volume that nothing mounts; with a credential secret alone the panic
    comes before any change. *)
Theorem X6_Apply_panic_leaves_volume (o : Options) (pt : PodTemplateSpec) :
  Containers (Spec pt) = [] ->
  (TLSSecretName (spec o) <> EmptyString ->
   exists pt',
     Apply o pt = Panicked pt'
     /\ Volumes (Spec pt') = Volumes (Spec pt) ++ [tlsVolume o]
     /\ Containers (Spec pt') = []
     /\ Labels pt' = Labels pt)
  /\ (TLSSecretName (spec o) = EmptyString ->
      CredentialSecretName (spec o) <> EmptyString ->
      Apply o pt = Panicked pt).
Proof.
  intros Hc. rewrite (Apply_no_container o pt Hc). split.
  - intros H%nonempty_true. rewrite H. eexists. split; [reflexivity|].
    cbn. now rewrite Hc.
  - intros -> H%nonempty_true. now rewrite H.
Qed.

Lemma X6_Apply_panic_witness :
  exists pt',
    Apply secured empty_template = Panicked pt'
    /\ Volumes (Spec pt') = [tlsVolume secured].
Proof.
  destruct (X6_Apply_panic_leaves_volume secured empty_template eq_refl) as [Htls _].
  destruct (Htls ltac:(discriminate)) as (pt' & Happly & Hvol & _).
  exists pt'. split; assumption.
Defined.

(** [Apply] and [GetStorageConfig] agree. With a TLS secret and a first
    container, the mount that [Apply] adds names the volume that it adds,
    the volume is backed by the secret of the spec, and the three files
    that [GetStorageConfig] names are [ca.crt], [tls.crt] and [tls.key]
    directly under the path of that mount. *)
Theorem X7_tls_files_under_the_mount (o : Options) (pt : PodTemplateSpec)
        (c0 : Container) (cs : list Container) :
  TLSSecretName (spec o) <> EmptyString ->
  Containers (Spec pt) = c0 :: cs ->
  exists pt' c0' v m,
    Apply o pt = Returned pt' None
    /\ Volumes (Spec pt') = Volumes (Spec pt) ++ [v]
    /\ Containers (Spec pt') = c0' :: cs
    /\ ctr_VolumeMounts c0' = ctr_VolumeMounts c0 ++ [m]
    /\ mnt_Name m = vol_Name v
    /\ mnt_ReadOnly m = true
    /\ Secret (vol_VolumeSource v) = Some {| SecretName := TLSSecretName (spec o) |}
    /\ List.filter (fun p => HasPrefix p "tls_") (params o)
       = [ field_line "tls_ca_file" (mnt_MountPath m +:+ EtcdClientCaName);
           field_line "tls_cert_file" (mnt_MountPath m +:+ EtcdClientCertName);
           field_line "tls_key_file" (mnt_MountPath m +:+ EtcdClientKeyName) ].
Proof.
  intros Htls%nonempty_true Hc. eexists _, _, _, _.
  split; [apply (Apply_returns o pt c0 cs Hc)|].
  rewrite tls_params, Htls. cbn. repeat split.
Qed.

Lemma X7_tls_files_witness :
  exists pt', Apply secured vault_template = Returned pt' None.
Proof.
  destruct (X7_tls_files_under_the_mount secured vault_template vault_container []
              ltac:(discriminate) eq_refl) as (pt' & c0' & v & m & Happly & _).
  now exists pt'.
Defined.

End ApplyMore.

(** ** The id of a role *)

Section RoleId.
Import GoString Controller.
Variable env : Env.

(** A name without a slash, as the names of namespaces are. *)
Fixpoint no_slash (s : string) : bool :=
  match s with
  | EmptyString => true
  | String c rest => negb (Ascii.eqb c "/"%char) && no_slash rest
  end.

Lemma append_empty_r (s : string) : s +:+ EmptyString = s.
Proof.
  induction s as [|c s IH]; [reflexivity|].
  change (String c (s +:+ EmptyString) = String c s). now rewrite IH.
Qed.

Lemma getGCPRoleId_eq (role : GCPRole) :
  getGCPRoleId env role
  = ResourceGCPRole env +:+ "/" +:+ Namespace (Meta role) +:+ "/" +:+ Name (Meta role).
Proof.
  unfold getGCPRoleId.
  rewrite <- (append_empty_r (Name (Meta role))) at 2. reflexivity.
Qed.

Lemma append_inj_l (k a b : string) : k +:+ a = k +:+ b -> a = b.
Proof. induction k as [|c k IH]; simpl; [tauto|]. intros [= H]. now apply IH. Qed.

Lemma slash_split (a a' b b' : string) :
  no_slash a = true -> no_slash a' = true ->
  a +:+ String "/" b = a' +:+ String "/" b' -> a = a' /\ b = b'.
Proof.
  revert a'. induction a as [|c a IH]; intros [|c' a']; simpl.
  - intros _ _ [= ->]. now split.
  - intros _ [Hc _]%andb_prop [= <- _]. discriminate.
  - intros [Hc _]%andb_prop _ [= -> _]. discriminate.
  - intros [_ Ha]%andb_prop [_ Ha']%andb_prop [= -> Hrest].
    destruct (IH a' Ha Ha' Hrest) as [-> ->]. now split.
Qed.

(** The id under which the registry guards a role tells the roles apart:
    two roles whose namespaces hold no slash have the same id only when
    they have the same namespace and the same name. *)
Theorem X8_role_id_tells_roles_apart (r1 r2 : GCPRole) :
  no_slash (Namespace (Meta r1)) = true ->
  no_slash (Namespace (Meta r2)) = true ->
  getGCPRoleId env r1 = getGCPRoleId env r2 ->
  Namespace (Meta r1) = Namespace (Meta r2) /\ Name (Meta r1) = Name (Meta r2).
Proof.
  intros H1 H2. rewrite !getGCPRoleId_eq. intros Hid.
  apply append_inj_l in Hid. injection Hid as Hid.
  now apply slash_split.
Qed.

End RoleId.

Lemma X8_role_id_witness :
  Controller.Namespace (Controller.Meta Controller.reader)
  = Controller.Namespace (Controller.Meta Controller.reader)
  /\ Controller.Name (Controller.Meta Controller.reader)
     = Controller.Name (Controller.Meta Controller.reader).
Proof.
  apply (X8_role_id_tells_roles_apart Controller.calm Controller.reader
           Controller.reader); reflexivity.
Defined.

(** ** More on reconciling *)

Section ReconcileMore.
Import Controller.
Variable env : Env.

(** What [reconcileGCPRole] returns tells how it went. *)
Lemma reconcileGCPRole_nil (role : GCPRole) (w : World) :
  let key := key_of (Namespace (Meta role)) (Name (Meta role)) in
  fst (reconcileGCPRole env role w) = None ->
  createRole env (trace w) = None
  /\ exists cur,
       store w !! key = Some cur
       /\ store (snd (reconcileGCPRole env role w))
          = <[key := with_Status cur (successStatus role (Status cur))]> (store w)
       /\ trace (snd (reconcileGCPRole env role w))
          = trace w ++ [ECreateRole None; EUpdateGCPRoleStatus key None].
Proof.
  intros key. rewrite reconcileGCPRole_eq. fold key.
  destruct (createRole env (trace w)) as [e|] eqn:Hcreate.
  - destruct (patch env key _ _ _) as [[e2|] w2]; discriminate.
  - rewrite patch_eq.
    destruct (patchFault env _) as [msg|]; [discriminate|].
    rewrite store_called.
    destruct (store w !! key) as [cur|]; [|discriminate].
    intros _. split; [reflexivity|]. exists cur.
    cbn [snd]. rewrite store_written, store_called, trace_written, trace_called.
    rewrite <- app_assoc. now repeat split.
Qed.

(** A failed create leaves the phase as it was. When [CreateRole] fails and
    the status patch goes through, the stored resource keeps its phase and
    its observed generation, beside its metadata: only the condition list
    is replaced, so a role that was in phase Success stays in phase Success
    with a Failure condition. Every other resource of the store is as
    before. *)
Theorem X9_create_failure_keeps_phase (role cur : GCPRole) (w : World)
        (e : base_error) :
  let key := key_of (Namespace (Meta role)) (Name (Meta role)) in
  createRole env (trace w) = Some e ->
  patchFault env (trace w ++ [ECreateRole (Some e)]) = None ->
  store w !! key = Some cur ->
  exists m,
    store (snd (reconcileGCPRole env role w)) !! key = Some m
    /\ Phase (Status m) = Phase (Status cur)
    /\ ObservedGeneration (Status m) = ObservedGeneration (Status cur)
    /\ Meta m = Meta cur
    /\ (exists c, Conditions (Status m) = [c] /\ cond_Type c = ConditionFailure)
    /\ forall k, k <> key ->
         store (snd (reconcileGCPRole env role w)) !! k = store w !! k.
Proof.
  intros key Hcreate Hpatch Hcur.
  rewrite reconcileGCPRole_eq, Hcreate. fold key.
  rewrite patch_eq, trace_called, Hpatch, store_called, Hcur.
  cbn [snd]. rewrite store_written, store_called.
  eexists. split; [apply lookup_insert_eq|]. cbn.
  repeat split; [eauto|].
  intros k Hk. now apply lookup_insert_ne.
Qed.

(** Reconciling is idempotent on success: when two calls in a row both
    return nil, the second leaves the store as the first left it. *)
Theorem X10_reconcile_twice_same_store (role : GCPRole) (w : World) :
  let w1 := snd (reconcileGCPRole env role w) in
  let w2 := snd (reconcileGCPRole env role w1) in
  fst (reconcileGCPRole env role w) = None ->
  fst (reconcileGCPRole env role w1) = None ->
  store w2 = store w1.
Proof.
  intros w1 w2 H1 H2.
  destruct (reconcileGCPRole_nil role w H1) as (_ & cur & Hcur & Hstore1 & _).
  destruct (reconcileGCPRole_nil role w1 H2) as (_ & cur1 & Hcur1 & Hstore2 & _).
  fold w1 in Hstore1. fold w2 in Hstore2.
  rewrite Hstore1, lookup_insert_eq in Hcur1. injection Hcur1 as <-.
  rewrite Hstore2. apply insert_id. rewrite Hstore1. apply lookup_insert_eq.
Qed.

End ReconcileMore.

Lemma X9_create_failure_witness :
  exists m,
    Controller.store (snd (Controller.reconcileGCPRole Controller.broken
                             Controller.reader Controller.world0))
      !! "demo/reader" = Some m
    /\ Controller.Phase (Controller.Status m) = EmptyString.
Proof.
  destruct (X9_create_failure_keeps_phase Controller.broken Controller.reader
              Controller.reader Controller.world0 Controller.unreachable
              eq_refl eq_refl eq_refl) as (m & Hm & Hphase & _).
  exists m. split; assumption.
Defined.

Lemma X10_reconcile_twice_witness :
  let w1 := snd (Controller.reconcileGCPRole Controller.calm Controller.reader
                   Controller.world0) in
  Controller.store (snd (Controller.reconcileGCPRole Controller.calm
                           Controller.reader w1))
  = Controller.store w1.
Proof.
  apply (X10_reconcile_twice_same_store Controller.calm Controller.reader
           Controller.world0); reflexivity.
Defined.

(** ** More on removing the finalizer token *)

Section RemoveFinalizerMore.
Import Controller.
Variable env : Env.

(** The store after [removeGCPRoleFinalizer]: as before, or with one
    resource replaced by itself without the token. *)
Lemma removeGCPRoleFinalizer_store (role : GCPRole) (w : World) :
  let w' := snd (removeGCPRoleFinalizer env role w) in
  store w' = store w
  \/ exists k cur,
       store w !! k = Some cur /\ store w' = <[k := withoutFinalizer cur]> (store w).
Proof.
  cbv zeta. rewrite removeGCPRoleFinalizer_eq. cbv zeta.
  destruct (IsNotFound _); [now left|].
  destruct (snd (Get_answer env _ _)); [now left|].
  destruct (fst (Get_answer env _ _)) as [m|]; [|now left].
  unfold PatchGCPRole. rewrite patch_eq.
  destruct (patchFault env _); [now left|].
  change (store (read env role w)) with (store w).
  destruct (store w !! _) as [cur|] eqn:Hcur; [|now left].
  right. eexists _, cur. split; [exact Hcur|]. reflexivity.
Qed.

Lemma HasFinalizer_RemoveFinalizer_ne (m : ObjectMeta) (f g : string) :
  g <> f -> HasFinalizer (RemoveFinalizer m f) g = HasFinalizer m g.
Proof.
  intros Hne. unfold HasFinalizer, RemoveFinalizer. cbn.
  induction (Finalizers m) as [|x l IH]; [reflexivity|].
  cbn. destruct (String.eqb x f) eqn:Hx; cbn.
  - apply String.eqb_eq in Hx. subst x.
    rewrite IH. apply String.eqb_neq in Hne. now rewrite Hne.
  - now rewrite IH.
Qed.

(** [removeGCPRoleFinalizer] takes out its own token and nothing else.
    Whatever the store and the environment do, it neither adds a resource
    to the store nor removes one, and a resource of the store keeps its
    name, namespace, generation, deletion mark and status, and every
    finalizer token of another controller. *)
Theorem X11_remove_finalizer_touches_only_its_token (role : GCPRole) (w : World)
        (k : string) :
  let w' := snd (removeGCPRoleFinalizer env role w) in
  match store w !! k, store w' !! k with
  | None, None => True
  | Some m, Some m' =>
      Status m' = Status m
      /\ Name (Meta m') = Name (Meta m)
      /\ Namespace (Meta m') = Namespace (Meta m)
      /\ Generation (Meta m') = Generation (Meta m)
      /\ DeletionTimestamp (Meta m') = DeletionTimestamp (Meta m)
      /\ forall g, g <> GCPRoleFinalizer ->
                   HasFinalizer (Meta m') g = HasFinalizer (Meta m) g
  | _, _ => False
  end.
Proof.
  cbv zeta.
  destruct (removeGCPRoleFinalizer_store role w) as [-> | (k0 & cur & Hcur & ->)].
  - destruct (store w !! k); [|exact I]. now repeat split.
  - destruct (decide (k0 = k)) as [->|Hne].
    + rewrite lookup_insert_eq, Hcur. repeat split.
      intros g Hg. now apply HasFinalizer_RemoveFinalizer_ne.
    + rewrite lookup_insert_ne by exact Hne.
      destruct (store w !! k); [|exact I]. now repeat split.
Qed.

End RemoveFinalizerMore.

Lemma X11_remove_finalizer_witness :
  match Controller.store Controller.world0 !! "demo/reader",
        Controller.store (snd (Controller.removeGCPRoleFinalizer Controller.calm
                                 Controller.reader Controller.world0))
          !! "demo/reader" with
  | None, None => True
  | Some m, Some m' => Controller.Status m' = Controller.Status m
  | _, _ => False
  end.
Proof.
  pose proof (X11_remove_finalizer_touches_only_its_token Controller.calm
                Controller.reader Controller.world0 "demo/reader") as H.
  cbv zeta in H.
  destruct (Controller.store Controller.world0 !! "demo/reader"),
    (Controller.store (snd (Controller.removeGCPRoleFinalizer Controller.calm
                              Controller.reader Controller.world0))
       !! "demo/reader"); try exact H.
  apply H.
Defined.

(** ** The injector *)

Section InjectorProps.
Import GoString Controller.
Variable env : Env.

(** What the injector does once the token is set: it makes the client and
    reconciles. *)
Definition after_token (role : GCPRole) (w1 : World)
  : (option error * option GCPRole) * World :=
  let w2 := called env (ENewGCPRole (newGCPRole env (trace w1))) w1 in
  match newGCPRole env (trace w1) with
  | Some e => ((Some (Base e), None), w2)
  | None =>
      let '(rerr, w3) := reconcileGCPRole env role w2 in
      (match rerr with
       | Some e =>
           (Some (Wrap e (Sprintf "for GCPRole %s/%s:"
                            [Namespace (Meta role); Name (Meta role)])), None)
       | None => (None, None)
       end, w3)
  end.

(** The injector on a resource of the cache that is not marked for
    deletion. *)
Lemma runGCPRoleInjector_live (inf : Informer) (key : string) (role : GCPRole)
      (w : World) :
  GetByKey inf key = (Some role, true, None) ->
  DeletionTimestamp (Meta role) = None ->
  runGCPRoleInjector env inf key w
  = let '(perr, w1) :=
      if HasFinalizer (Meta role) GCPRoleFinalizer then (None, w)
      else PatchGCPRole env role withFinalizer w in
    match perr with
    | Some e =>
        ((Some (Wrap (Base e)
                  (Sprintf "failed to set GCPRole finalizer for %s/%s"
                     [Namespace (Meta role); Name (Meta role)])), None), w1)
    | None => after_token role w1
    end.
Proof.
  intros Hget Hlive. unfold after_token, runGCPRoleInjector. rewrite Hget, Hlive.
  unfold bind at 1.
  destruct (HasFinalizer (Meta role) GCPRoleFinalizer); cbn [negb].
  - cbn [ret]. unfold bind at 1. rewrite NewGCPRole_eq.
    destruct (newGCPRole env (trace w)); [reflexivity|].
    unfold bind. cbv zeta.
    destruct (reconcileGCPRole env role _) as [[e|] w3]; reflexivity.
  - destruct (PatchGCPRole env role withFinalizer w) as [[e|] w1]; [reflexivity|].
    unfold bind at 1. rewrite NewGCPRole_eq.
    destruct (newGCPRole env (trace w1)); [reflexivity|].
    unfold bind. cbv zeta.
    destruct (reconcileGCPRole env role _) as [[e|] w3]; reflexivity.
Qed.

(** When the injector has nothing to reconcile. For a key that the cache
    does not hold it returns nil and calls nothing. For a resource that is
    marked for deletion it returns nil at once as well, without a call on
    the store or on the adapter, and it launches the finalizer exactly when
    the resource still carries the token. An error of the cache is returned
    as it is. In all these cases the world is as before. *)
Theorem X12_injector_without_work (inf : Informer) (key : string) (w : World) :
  (forall e, indexerError inf = Some e ->
     runGCPRoleInjector env inf key w = ((Some (Base e), None), w))
  /\ (indexerError inf = None -> indexer inf !! key = None ->
      runGCPRoleInjector env inf key w = ((None, None), w))
  /\ (forall role t,
        indexerError inf = None -> indexer inf !! key = Some role ->
        DeletionTimestamp (Meta role) = Some t ->
        runGCPRoleInjector env inf key w
        = ((None, if HasFinalizer (Meta role) GCPRoleFinalizer
                  then Some role else None), w)).
Proof.
  unfold runGCPRoleInjector, GetByKey. split; [|split].
  - intros e ->. reflexivity.
  - intros -> ->. reflexivity.
  - intros role t -> -> ->.
    now destruct (HasFinalizer (Meta role) GCPRoleFinalizer).
Qed.

End InjectorProps.

Lemma X12_injector_without_work_witness :
  Controller.runGCPRoleInjector Controller.calm Controller.cache_reader
    "demo/reader" Controller.world0
  = ((None, Some Controller.reader), Controller.world0)
  /\ Controller.runGCPRoleInjector Controller.calm Controller.cache_reader
       "demo/other" Controller.world0
     = ((None, None), Controller.world0).
Proof.
  destruct (X12_injector_without_work Controller.calm Controller.cache_reader
              "demo/reader" Controller.world0) as (_ & _ & Hmarked).
  destruct (X12_injector_without_work Controller.calm Controller.cache_reader
              "demo/other" Controller.world0) as (_ & Habsent & _).
  split.
  - apply (Hmarked Controller.reader 100); reflexivity.
  - apply Habsent; reflexivity.
Defined.

Section InjectorLive.
Import GoString Controller.
Variable env : Env.

Definition is_patch (e : event) : bool :=
  match e with
  | EPatchGCPRole _ _ => true
  | _ => false
  end.

Definition is_status_update (e : event) : bool :=
  match e with
  | EUpdateGCPRoleStatus _ _ => true
  | _ => false
  end.

(** The log and the store after [reconcileGCPRole]: one create, one status
    patch, and statuses apart, every resource as before. *)
Lemma reconcileGCPRole_log (role : GCPRole) (w : World) :
  let key := key_of (Namespace (Meta role)) (Name (Meta role)) in
  let w' := snd (reconcileGCPRole env role w) in
  exists r err,
    trace w' = trace w ++ [ECreateRole r; EUpdateGCPRoleStatus key err]
    /\ finalizerInfo w' = finalizerInfo w.
Proof.
  cbv zeta. rewrite reconcileGCPRole_eq.
  set (key := key_of (Namespace (Meta role)) (Name (Meta role))).
  destruct (createRole env (trace w)) as [e|].
  - destruct (status_patch_cases env key (failureStatus e)
                (called env (ECreateRole (Some e)) w))
      as (err & w2 & -> & Ht & Hr & _).
    exists (Some e), err. cbn [snd]. rewrite Ht, Hr, trace_called, <- app_assoc.
    now split.
  - destruct (status_patch_cases env key (successStatus role)
                (called env (ECreateRole None) w))
      as (err & w2 & -> & Ht & Hr & _).
    exists None, err. cbn [snd]. rewrite Ht, Hr, trace_called, <- app_assoc.
    now split.
Qed.

Lemma HasFinalizer_AddFinalizer (m : ObjectMeta) (f : string) :
  HasFinalizer (AddFinalizer m f) f = true.
Proof.
  unfold AddFinalizer. destruct (HasFinalizer m f) eqn:H; [exact H|].
  unfold HasFinalizer. cbn. rewrite existsb_app. cbn.
  rewrite String.eqb_refl. now rewrite orb_true_r.
Qed.

(** The token is set at most once. For a resource of the cache that is not
    marked for deletion: when it carries the token the injector calls no
    patch of the resource at all; when it does not, the first thing the
    injector does is one such patch, and it calls no other. *)
Theorem X13_finalizer_patched_only_when_absent (inf : Informer) (key : string)
        (role : GCPRole) (w : World) :
  GetByKey inf key = (Some role, true, None) ->
  DeletionTimestamp (Meta role) = None ->
  let w' := snd (runGCPRoleInjector env inf key w) in
  let rkey := key_of (Namespace (Meta role)) (Name (Meta role)) in
  if HasFinalizer (Meta role) GCPRoleFinalizer then
    exists evs, trace w' = trace w ++ evs /\ forallb (fun e => negb (is_patch e)) evs = true
  else
    exists r evs,
      trace w' = trace w ++ EPatchGCPRole rkey r :: evs
      /\ forallb (fun e => negb (is_patch e)) evs = true.
Proof.
  intros Hget Hlive. cbv zeta. rewrite (runGCPRoleInjector_live _ _ _ _ _ Hget Hlive).
  assert (Hrest : forall w1,
    exists evs,
      trace (snd (after_token env role w1)) = trace w1 ++ evs
      /\ forallb (fun e => negb (is_patch e)) evs = true).
  { intros w1. unfold after_token. cbv zeta.
    destruct (newGCPRole env (trace w1)) as [e|].
    - exists [ENewGCPRole (Some e)]. now split.
    - pose proof (reconcileGCPRole_log role (called env (ENewGCPRole None) w1))
        as (r & err & Ht & _).
      destruct (reconcileGCPRole env role _) as [rerr w3]. cbn [snd] in *.
      eexists. rewrite Ht, trace_called, <- app_assoc. split; reflexivity. }
  destruct (HasFinalizer (Meta role) GCPRoleFinalizer).
  - cbv iota beta. apply Hrest.
  - unfold PatchGCPRole. rewrite patch_eq.
    set (rkey := key_of (Namespace (Meta role)) (Name (Meta role))).
    destruct (patchFault env (trace w)) as [msg|];
      [|destruct (store w !! rkey) as [cur|]].
    + eexists _, []. cbv iota beta. cbn [snd]. now rewrite trace_called.
    + cbv iota beta.
      destruct (Hrest (written env rkey (withFinalizer cur) (EPatchGCPRole rkey None) w))
        as (evs & Ht & Hp).
      exists None, evs. rewrite Ht, trace_written, <- app_assoc. now split.
    + eexists _, []. cbv iota beta. cbn [snd]. now rewrite trace_called.
Qed.

End InjectorLive.

Lemma X13_finalizer_patched_witness :
  exists r evs,
    Controller.trace (snd (Controller.runGCPRoleInjector Controller.calm
                             Controller.cache_fresh "demo/writer"
                             Controller.world_fresh))
    = Controller.trace Controller.world_fresh
        ++ Controller.EPatchGCPRole "demo/writer" r :: evs.
Proof.
  pose proof (X13_finalizer_patched_only_when_absent Controller.calm
                Controller.cache_fresh "demo/writer" Controller.fresh
                Controller.world_fresh eq_refl eq_refl) as H.
  cbv zeta in H. change (Controller.HasFinalizer (Controller.Meta Controller.fresh)
                           Controller.GCPRoleFinalizer) with false in H.
  destruct H as (r & evs & Ht & _). now exists r, evs.
Defined.

Section InjectorOutcomes.
Import GoString Controller.
Variable env : Env.

(** When the patch that sets the token fails, the injector stops there: it
    returns the error of the patch, wrapped with the namespace and the name
    of the role, and it has called neither the adapter nor the status
    patch; the store is as before. *)
Theorem X14_injector_stops_on_patch_failure (inf : Informer) (key : string)
        (role : GCPRole) (w : World) (e : base_error) :
  GetByKey inf key = (Some role, true, None) ->
  DeletionTimestamp (Meta role) = None ->
  HasFinalizer (Meta role) GCPRoleFinalizer = false ->
  fst (PatchGCPRole env role withFinalizer w) = Some e ->
  let rkey := key_of (Namespace (Meta role)) (Name (Meta role)) in
  exists w',
    runGCPRoleInjector env inf key w
    = ((Some (Wrap (Base e)
                ("failed to set GCPRole finalizer for "
                 +:+ Namespace (Meta role) +:+ "/" +:+ Name (Meta role))), None), w')
    /\ trace w' = trace w ++ [EPatchGCPRole rkey (Some e)]
    /\ store w' = store w.
Proof.
  intros Hget Hlive Hno Hfail rkey.
  rewrite (runGCPRoleInjector_live _ _ _ _ _ Hget Hlive), Hno.
  revert Hfail. unfold PatchGCPRole. fold rkey. rewrite patch_eq.
  assert (Hmsg : Sprintf "failed to set GCPRole finalizer for %s/%s"
                   [Namespace (Meta role); Name (Meta role)]
                 = "failed to set GCPRole finalizer for "
                   +:+ Namespace (Meta role) +:+ "/" +:+ Name (Meta role)).
  { rewrite <- (append_empty_r (Name (Meta role))) at 2. reflexivity. }
  destruct (patchFault env (trace w)) as [msg|];
    [|destruct (store w !! rkey) as [cur|]]; cbn [fst]; intros [= <-].
  - eexists. rewrite Hmsg. split; [reflexivity|]. now rewrite trace_called.
  - eexists. rewrite Hmsg. split; [reflexivity|]. now rewrite trace_called.
Qed.

(** The status of every resource after the patch that sets the token. *)
Lemma token_patch_keeps_status (role : GCPRole) (w : World) (k : string) :
  Status <$> (store (snd (PatchGCPRole env role withFinalizer w)) !! k)
  = Status <$> (store w !! k).
Proof.
  unfold PatchGCPRole. rewrite patch_eq.
  set (rkey := key_of (Namespace (Meta role)) (Name (Meta role))).
  destruct (patchFault env (trace w)); [reflexivity|].
  destruct (store w !! rkey) as [cur|] eqn:Hcur; [|reflexivity].
  cbn [snd]. rewrite store_written.
  destruct (decide (rkey = k)) as [<-|Hne].
  - now rewrite lookup_insert_eq, Hcur.
  - now rewrite lookup_insert_ne.
Qed.

(** An adapter that cannot be made is not reported in the status. When
    [NewGCPRole] fails, the injector returns its error as it is, without
    calling [CreateRole] or the status patch, so the status of every
    resource of the store is as it was before the call. *)
Theorem X15_adapter_error_not_in_status (inf : Informer) (key : string)
        (role : GCPRole) (w : World) :
  GetByKey inf key = (Some role, true, None) ->
  DeletionTimestamp (Meta role) = None ->
  (forall tr, newGCPRole env tr <> None) ->
  let r := runGCPRoleInjector env inf key w in
  fst (fst r) <> None
  /\ (HasFinalizer (Meta role) GCPRoleFinalizer = true ->
      exists e, newGCPRole env (trace w) = Some e /\ fst (fst r) = Some (Base e))
  /\ snd (fst r) = None
  /\ (exists evs,
        trace (snd r) = trace w ++ evs
        /\ forallb (fun e => negb (is_status_update e)
                             && match e with ECreateRole _ => false | _ => true end)
                   evs = true)
  /\ forall k, Status <$> (store (snd r) !! k) = Status <$> (store w !! k).
Proof.
  intros Hget Hlive Hnew. cbv zeta.
  rewrite (runGCPRoleInjector_live _ _ _ _ _ Hget Hlive).
  assert (Hafter : forall w1,
    fst (fst (after_token env role w1)) <> None
    /\ snd (fst (after_token env role w1)) = None
    /\ trace (snd (after_token env role w1))
       = trace w1 ++ [ENewGCPRole (newGCPRole env (trace w1))]
    /\ store (snd (after_token env role w1)) = store w1).
  { intros w1. unfold after_token. cbv zeta. specialize (Hnew (trace w1)).
    destruct (newGCPRole env (trace w1)) as [e|]; [|contradiction].
    now repeat split. }
  destruct (HasFinalizer (Meta role) GCPRoleFinalizer).
  - cbv iota beta. destruct (Hafter w) as (He & Hs & Ht & Hst).
    split; [exact He|]. split; [|split; [exact Hs|split]].
    + intros _. unfold after_token. cbv zeta. specialize (Hnew (trace w)).
      destruct (newGCPRole env (trace w)) as [e|]; [|contradiction]. now exists e.
    + eexists. split; [exact Ht | reflexivity].
    + intros k. now rewrite Hst.
  - pose proof (token_patch_keeps_status role w) as Hstatus.
    assert (Hlog : exists r, trace (snd (PatchGCPRole env role withFinalizer w))
                             = trace w ++ [EPatchGCPRole
                                 (key_of (Namespace (Meta role)) (Name (Meta role))) r]).
    { unfold PatchGCPRole. rewrite patch_eq.
      destruct (patchFault env (trace w)); [|destruct (store w !! _)];
        eexists; reflexivity. }
    destruct Hlog as (pr & Hlog).
    destruct (PatchGCPRole env role withFinalizer w) as [[e|] w1]; cbn [fst snd] in *.
    + split; [discriminate|]. split; [discriminate|]. split; [reflexivity|]. split.
      * eexists. split; [exact Hlog | reflexivity].
      * exact Hstatus.
    + destruct (Hafter w1) as (He & Hs & Ht & Hst).
      split; [exact He|]. split; [discriminate|]. split; [exact Hs|]. split.
      * eexists. rewrite Ht, Hlog, <- app_assoc. split; reflexivity.
      * intros k. rewrite Hst. apply Hstatus.
Qed.

End InjectorOutcomes.

Lemma X14_injector_patch_failure_witness :
  exists err w',
    Controller.runGCPRoleInjector Controller.readonly Controller.cache_fresh
      "demo/writer" Controller.world_fresh = ((Some err, None), w')
    /\ Controller.store w' = Controller.store Controller.world_fresh.
Proof.
  destruct (X14_injector_stops_on_patch_failure Controller.readonly
              Controller.cache_fresh "demo/writer" Controller.fresh
              Controller.world_fresh (Controller.transient "forbidden")
              eq_refl eq_refl eq_refl eq_refl) as (w' & Hrun & _ & Hstore).
  eexists _, w'. split; [exact Hrun | exact Hstore].
Defined.

Lemma X15_adapter_error_witness :
  fst (fst (Controller.runGCPRoleInjector Controller.adapterless
              Controller.cache_fresh "demo/writer" Controller.world_fresh)) <> None.
Proof.
  apply (X15_adapter_error_not_in_status Controller.adapterless
           Controller.cache_fresh "demo/writer" Controller.fresh
           Controller.world_fresh eq_refl eq_refl).
  intros tr. discriminate.
Defined.

Section InjectorSuccess.
Import GoString Controller.
Variable env : Env.

(** The first reconcile of a new resource. For a resource that is not
    marked for deletion and has no token yet, when the store holds it and
    every call goes through, the injector makes exactly these calls, in
    this order: one patch that sets the token, one construction of the
    client, one [CreateRole], one status patch. It returns nil and launches
    nothing, and the stored resource then carries the token, has an empty
    condition list, phase Success and the generation of the role as its
    observed generation. *)
Theorem X16_first_reconcile_of_new_resource (inf : Informer) (key : string)
        (role cur : GCPRole) (w : World) :
  GetByKey inf key = (Some role, true, None) ->
  DeletionTimestamp (Meta role) = None ->
  HasFinalizer (Meta role) GCPRoleFinalizer = false ->
  let rkey := key_of (Namespace (Meta role)) (Name (Meta role)) in
  store w !! rkey = Some cur ->
  (forall tr, patchFault env tr = None) ->
  (forall tr, newGCPRole env tr = None) ->
  (forall tr, createRole env tr = None) ->
  exists w' m,
    runGCPRoleInjector env inf key w = ((None, None), w')
    /\ trace w' = trace w ++ [ EPatchGCPRole rkey None; ENewGCPRole None;
                               ECreateRole None; EUpdateGCPRoleStatus rkey None ]
    /\ store w' !! rkey = Some m
    /\ HasFinalizer (Meta m) GCPRoleFinalizer = true
    /\ Conditions (Status m) = []
    /\ Phase (Status m) = "Success"
    /\ ObservedGeneration (Status m) = Generation (Meta role)
    /\ finalizerInfo w' = finalizerInfo w.
Proof.
  intros Hget Hlive Hno rkey Hcur Hpatch Hnew Hcreate.
  rewrite (runGCPRoleInjector_live _ _ _ _ _ Hget Hlive), Hno.
  unfold PatchGCPRole. fold rkey. rewrite patch_eq, Hpatch, Hcur.
  cbv iota beta. unfold after_token. cbv zeta. rewrite Hnew.
  rewrite reconcileGCPRole_eq. fold rkey. rewrite Hcreate.
  rewrite patch_eq, Hpatch.
  rewrite store_called, store_called, store_written, lookup_insert_eq.
  eexists _, _. split; [reflexivity|].
  rewrite trace_written, store_written, !trace_called, trace_written, <- !app_assoc.
  split; [reflexivity|]. split; [apply lookup_insert_eq|].
  split; [apply HasFinalizer_AddFinalizer|]. now repeat split.
Qed.

End InjectorSuccess.

Lemma X16_first_reconcile_witness :
  exists w',
    Controller.runGCPRoleInjector Controller.calm Controller.cache_fresh
      "demo/writer" Controller.world_fresh = ((None, None), w').
Proof.
  destruct (X16_first_reconcile_of_new_resource Controller.calm
              Controller.cache_fresh "demo/writer" Controller.fresh Controller.fresh
              Controller.world_fresh eq_refl eq_refl eq_refl eq_refl
              (fun _ => eq_refl) (fun _ => eq_refl) (fun _ => eq_refl))
    as (w' & m & Hrun & _).
  now exists w'.
Defined.

(** ** The events of a pass of the finalization loop *)

Section PassEvents.
Import Controller.
Variable env : Env.
Variable role : GCPRole.
Variable interval : nat.

(** What the first block of a pass leaves in the log, by whether the role
    was already deleted before and is deleted after. *)
Definition finalize_events (done : bool) (fin : list event) (done' : bool) : Prop :=
  if done then fin = [] /\ done' = true
  else (exists e, fin = [ENewGCPRole (Some e)] /\ done' = false)
       \/ (exists n e, fin = [ENewGCPRole None; EDeleteRole n (Some e)] /\ done' = false)
       \/ (exists n, fin = [ENewGCPRole None; EDeleteRole n None] /\ done' = true).

Lemma tryFinalize_events (st : loop_state) (w : World) :
  let r := tryFinalize env role st w in
  exists fin,
    trace (snd r) = trace w ++ fin
    /\ finalize_events (finalizationDone st) fin (finalizationDone (fst r)).
Proof.
  cbv zeta. rewrite tryFinalize_eq. unfold finalize_events.
  destruct (finalizationDone st) eqn:Hdone.
  - exists []. cbn [fst snd]. now rewrite app_nil_r.
  - cbv zeta. destruct (newGCPRole env (trace w)) as [e|].
    + eexists. cbn [fst snd]. rewrite trace_called. split; [reflexivity|].
      left. now exists e.
    + destruct (deleteRole env _) as [e|]; eexists; cbn [fst snd];
        rewrite !trace_called, <- app_assoc; (split; [reflexivity|]).
      * right; left. eexists _, e. now split.
      * right; right. eexists. now split.
Qed.

Lemma removeGCPRoleFinalizer_events (w : World) :
  exists evs,
    trace (snd (removeGCPRoleFinalizer env role w)) = trace w ++ evs
    /\ forallb is_removal evs = true.
Proof.
  rewrite removeGCPRoleFinalizer_eq. cbv zeta.
  set (key := key_of (Namespace (Meta role)) (Name (Meta role))).
  set (ans := Get_answer env key (entered role w)).
  assert (Ht : trace (read env role w)
               = trace w ++ [ERemoveFinalizer key; EGet key (snd ans)]).
  { unfold read. fold key. fold ans. rewrite trace_called. unfold entered.
    cbn [snd emit trace]. now rewrite <- app_assoc. }
  assert (Hdone : exists evs, trace (read env role w) = trace w ++ evs
                              /\ forallb is_removal evs = true).
  { eexists. split; [exact Ht | reflexivity]. }
  destruct (IsNotFound (snd ans)); [exact Hdone|].
  destruct (snd ans) as [e|]; [exact Hdone|].
  destruct (fst ans) as [m|]; [|exact Hdone].
  unfold PatchGCPRole. rewrite patch_eq.
  destruct (patchFault env (trace (read env role w))) as [msg|];
    [|destruct (store (read env role w) !! _) as [cur|]];
    cbn [snd]; rewrite ?trace_called, ?trace_written, Ht, <- app_assoc;
    eexists; (split; [reflexivity|]); reflexivity.
Qed.

Lemma tryRemove_events (st : loop_state) (w : World) :
  let r := tryRemove env role st w in
  exists rem,
    trace (snd r) = trace w ++ rem
    /\ forallb is_removal rem = true
    /\ (finalizationDone st = false -> rem = []).
Proof.
  cbv zeta. unfold tryRemove. destruct (finalizationDone st).
  - unfold bind. destruct (removeGCPRoleFinalizer_events w) as (evs & Ht & Hp).
    destruct (removeGCPRoleFinalizer env role w) as [[e|] w1]; cbn [snd] in *;
      exists evs; (split; [exact Ht|]); (split; [exact Hp | discriminate]).
  - exists []. cbn [snd ret]. rewrite app_nil_r. now repeat split.
Qed.

Lemma wait_stopCh_events (st : loop_state) (w : World) :
  exists b, trace (snd (wait_stopCh interval st w)) = trace w ++ [EWait b].
Proof.
  rewrite wait_stopCh_eq. cbv zeta.
  destruct (stopCh st) as [d|]; [destruct (d <=? now w + interval)%nat|];
    eexists; reflexivity.
Qed.

(** The log of one pass: the events of the first block, then those of the
    second, then at most one wait. A pass that finds the timeout due leaves
    nothing. *)
Lemma iteration_events (st : loop_state) (w : World) (d : nat) :
  armed d st ->
  let r := iteration env role interval st w in
  (d <= now w ->
   snd r = w /\ finalizationDone (snd (fst r)) = finalizationDone st)
  /\ exists fin rem wt,
       trace (snd r) = trace w ++ fin ++ rem ++ wt
       /\ (d <= now w -> fin = [] /\ rem = [] /\ wt = [])
       /\ (now w < d ->
           finalize_events (finalizationDone st) fin (finalizationDone (snd (fst r))))
       /\ forallb is_removal rem = true
       /\ (finalizationDone (snd (fst r)) = false -> rem = [])
       /\ (wt = [] \/ exists b, wt = [EWait b]).
Proof.
  intros [Hch Hto]. cbv zeta. rewrite iteration_eq, poll_stopCh_eq. cbv zeta. cbn [fst].
  rewrite Hch. destruct (d <=? now w)%nat eqn:Hdue.
  - cbn [timeOutOccured fst snd]. split; [now split|].
    exists [], [], []. rewrite app_nil_r. apply Nat.leb_le in Hdue.
    repeat split; try reflexivity; try (intros; lia). now left.
  - apply Nat.leb_gt in Hdue. rewrite Hto. split; [lia|].
    pose proof (tryFinalize_events st w) as (fin & Ht1 & Hfin).
    pose proof (tryFinalize_spec env role st w) as (_ & _ & _ & _ & _ & _).
    destruct (tryFinalize env role st w) as [st2 w2]. cbn [fst snd] in *.
    pose proof (tryRemove_events st2 w2) as (rem & Ht2 & Hrem & Hnone).
    destruct (tryRemove env role st2 w2) as [removed w3]. cbn [fst snd] in *.
    destruct removed.
    + cbn [fst snd]. exists fin, rem, []. rewrite app_nil_r, Ht2, Ht1, <- app_assoc.
      split; [reflexivity|]. split; [lia|]. split; [now intros _|].
      split; [exact Hrem|]. split; [exact Hnone | now left].
    + pose proof (wait_stopCh_events st2 w3) as (b & Ht3).
      pose proof (wait_stopCh_eq interval st2 w3) as Heq.
      destruct (wait_stopCh interval st2 w3) as [st4 w4]. cbn [fst snd] in *.
      assert (Hd4 : finalizationDone st4 = finalizationDone st2).
      { cbv zeta in Heq. destruct (stopCh st2) as [d2|];
          [destruct (d2 <=? now w3 + interval)%nat|];
          injection Heq as Hst _; first [now rewrite Hst | now rewrite <- Hst]. }
      exists fin, rem, [EWait b]. rewrite Ht3, Ht2, Ht1, <- !app_assoc.
      split; [reflexivity|]. split; [lia|].
      cbn [incr_attempt finalizationDone]. rewrite Hd4.
      split; [now intros _|]. split; [exact Hrem|]. split; [exact Hnone|].
      right. now exists b.
Qed.

End PassEvents.

(** ** The protocol of the finalization loop *)

Section LoopProtocol.
Import Controller.
Variable env : Env.
Variable role : GCPRole.
Variable interval : nat.






End LoopProtocol.

Section DeleteThenRemove.
Import Controller.
Variable env : Env.
Variable role : GCPRole.
Variable interval : nat.

(** The events of the loop before the delete has succeeded and after. *)
Definition attempt_event (e : event) : bool :=
  delete_event e && negb (is_delete_success e).

Definition after_event (e : event) : bool :=
  loop_event e && negb (is_delete_attempt e).

(** The log of the loop so far: while the role is not deleted it holds
    failed attempts and waits only; once it is deleted it holds them, then
    the one delete that succeeded, then removals of the token and waits,
    and no further delete. *)
Definition protocol (done : bool) (evs : list event) : Prop :=
  if done then
    exists a n b,
      evs = a ++ EDeleteRole n None :: b
      /\ forallb attempt_event a = true
      /\ forallb after_event b = true
  else forallb attempt_event evs = true.

Lemma removal_after_event (rem : list event) :
  forallb is_removal rem = true -> forallb after_event rem = true.
Proof.
  induction rem as [|e rem IH]; [reflexivity|].
  cbn. intros [He Hrem]%andb_prop. rewrite (IH Hrem).
  destruct e; try discriminate; reflexivity.
Qed.

Lemma pass_protocol (done done' : bool) (evs fin rem wt : list event) :
  protocol done evs ->
  finalize_events done fin done' ->
  forallb is_removal rem = true ->
  (done' = false -> rem = []) ->
  (wt = [] \/ exists b, wt = [EWait b]) ->
  protocol done' (evs ++ fin ++ rem ++ wt).
Proof.
  intros Hevs Hfin Hrem%removal_after_event Hnone Hwt.
  assert (Hwa : forallb attempt_event wt = true /\ forallb after_event wt = true).
  { destruct Hwt as [-> | (b & ->)]; now split. }
  destruct Hwa as [Hwa Hwb].
  unfold finalize_events, protocol in *. destruct done.
  - destruct Hfin as [-> ->]. destruct Hevs as (a & n & b & -> & Ha & Hb).
    exists a, n, (b ++ rem ++ wt). cbn [app]. rewrite <- !app_assoc. cbn [app].
    split; [reflexivity|]. split; [exact Ha|].
    now rewrite !forallb_app, Hb, Hrem, Hwb.
  - destruct Hfin as [(e & -> & ->) | [(n & e & -> & ->) | (n & -> & ->)]].
    + rewrite (Hnone eq_refl). now rewrite !forallb_app, Hevs, Hwa.
    + rewrite (Hnone eq_refl). now rewrite !forallb_app, Hevs, Hwa.
    + exists (evs ++ [ENewGCPRole None]), n, (rem ++ wt).
      rewrite <- !app_assoc. cbn [app]. split; [reflexivity|].
      split; [now rewrite forallb_app, Hevs | now rewrite forallb_app, Hrem, Hwb].
Qed.

Lemma loop_protocol (d : nat) (tr0 : list event) :
  forall (fuel : nat) (st st' : loop_state) (w w' : World) (evs0 : list event),
    fired st \/ armed d st ->
    trace w = tr0 ++ evs0 ->
    protocol (finalizationDone st) evs0 ->
    loop env fuel role interval st w = Some (st', w') ->
    exists evs, trace w' = tr0 ++ evs /\ protocol (finalizationDone st') evs.
Proof.
  induction fuel as [|fuel IH]; intros st st' w w' evs0 Hst Ht0 Hp Hrun; [discriminate|].
  rewrite loop_S in Hrun. destruct Hst as [Hf | Ha].
  - rewrite (iteration_fired env role interval st w Hf) in Hrun.
    injection Hrun as <- <-. now exists evs0.
  - pose proof (iteration_armed env role interval st w d Ha) as (_ & _ & Hnext & _).
    destruct (iteration_events env role interval st w d Ha)
      as (Hdue & fin & rem & wt & Ht & Hnil & Hfin & Hrem & Hnone & Hwt).
    destruct (iteration env role interval st w) as [[brk st1] w1].
    cbn [fst snd] in *.
    assert (Hp1 : exists evs1, trace w1 = tr0 ++ evs1
                               /\ protocol (finalizationDone st1) evs1).
    { destruct (Nat.le_gt_cases d (now w)) as [Hle | Hlt].
      - destruct (Hdue Hle) as [-> ->]. now exists evs0.
      - exists (evs0 ++ fin ++ rem ++ wt). rewrite Ht, Ht0, <- app_assoc.
        split; [reflexivity|].
        apply (pass_protocol (finalizationDone st));
          [exact Hp | exact (Hfin Hlt) | exact Hrem | exact Hnone | exact Hwt]. }
    destruct Hp1 as (evs1 & Ht1 & Hp1). destruct brk.
    + injection Hrun as <- <-. now exists evs1.
    + apply (IH st1 st' w1 w' evs1); try assumption.
      destruct (Hnext eq_refl) as [Hf1 | (Ha1 & _)]; [now left | now right].
Qed.

End DeleteThenRemove.

(** ** More on a run of the finalizer *)

Section RunMore.
Import Controller.
Variable env : Env.
Variable role : GCPRole.
Variable timeout interval : nat.

Lemma runGCPRoleFinalizer_busy (fuel t i : nat) (w1 : World) :
  is_Some (finalizerInfo w1 !! getGCPRoleId env role) ->
  runGCPRoleFinalizer env fuel (Some role) t i w1 = Some w1.
Proof.
  intros Hbusy. unfold runGCPRoleFinalizer, IsAlreadyProcessing, bind, get_world, ret.
  now rewrite bool_decide_eq_true_2.
Qed.

(** The guard against a second finalizer. From the registration on and as
    long as the loop runs, the id of the role is in the registry, so a
    second run for the same role that starts in any of these worlds
    returns at once: it calls nothing and leaves the world, registry
    included, as it is. *)
Theorem X17_second_trigger_does_nothing (w : World) :
  (forall w1,
     follows loop_event (registered env role w) w1 ->
     forall fuel t i, runGCPRoleFinalizer env fuel (Some role) t i w1 = Some w1)
  /\ (forall fuel st' w1,
        loop env fuel role interval (first_pass env role timeout w)
             (registered env role w) = Some (st', w1) ->
        follows loop_event (registered env role w) w1).
Proof.
  split.
  - intros w1 (Hreg & _) fuel t i. apply runGCPRoleFinalizer_busy.
    rewrite Hreg. destruct (registered_eq env role w) as (-> & _).
    rewrite lookup_insert_eq. now eexists.
  - intros fuel st' w1 Hloop.
    apply (loop_follows env role interval _ _ _ _ _ _
             (or_intror (first_pass_armed env role timeout w)) Hloop).
Qed.


(** Delete, then remove. In the log of the loop of a run, nothing is tried
    on the finalizer token before a delete has succeeded, at most one
    delete succeeds, and no delete is tried after it: either the log holds
    failed attempts and waits only, or it holds them, then the delete that
    succeeded, then removals of the token and waits. *)
Theorem X19_delete_then_remove (w : World) :
  finalizerInfo w !! getGCPRoleId env role = None ->
  forall fuel w',
    runGCPRoleFinalizer env fuel (Some role) timeout interval w = Some w' ->
    exists inloop last,
      trace w' = trace w ++ [ERegistryAdd (getGCPRoleId env role)] ++ inloop
                   ++ last ++ [ERegistryDelete (getGCPRoleId env role)]
      /\ forallb is_removal last = true
      /\ (forallb attempt_event inloop = true
          \/ exists a n b,
               inloop = a ++ EDeleteRole n None :: b
               /\ forallb attempt_event a = true
               /\ forallb after_event b = true).
Proof.
  intros Hfree fuel w' Hrun.
  rewrite (runGCPRoleFinalizer_eq env role timeout interval _ w Hfree) in Hrun.
  destruct (loop env fuel role interval (first_pass env role timeout w)
              (registered env role w)) as [[st1 w1]|] eqn:Hloop; [|discriminate].
  injection Hrun as <-.
  destruct (registered_eq env role w) as (_ & Ht0 & _).
  destruct (loop_protocol env role interval _ (trace (registered env role w))
              _ _ _ _ _ []
              (or_intror (first_pass_armed env role timeout w))
              (eq_sym (app_nil_r _)) eq_refl Hloop) as (evs1 & Ht1 & Hp1).
  destruct (removeGCPRoleFinalizer_events env role w1) as (evs2 & Ht2 & Hp2).
  exists evs1, evs2. split; [|split; [exact Hp2|]].
  - cbn [trace]. rewrite Ht2, Ht1, Ht0, <- !app_assoc. reflexivity.
  - unfold protocol in Hp1. destruct (finalizationDone st1); [now right | now left].
Qed.

End RunMore.

Lemma X17_second_trigger_witness :
  Controller.runGCPRoleFinalizer Controller.calm 7 (Some Controller.reader) 30 5
    (Controller.registered Controller.calm Controller.reader Controller.world0)
  = Some (Controller.registered Controller.calm Controller.reader Controller.world0).
Proof.
  destruct (X17_second_trigger_does_nothing Controller.calm Controller.reader 30 5
              Controller.world0) as [Hguard _].
  apply Hguard. apply follows_refl.
Defined.


Lemma X19_delete_then_remove_witness :
  exists w' inloop last,
    Controller.runGCPRoleFinalizer Controller.calm 10 (Some Controller.reader) 30 5
      Controller.world0 = Some w'
    /\ Controller.trace w'
       = Controller.trace Controller.world0
           ++ [Controller.ERegistryAdd "gcproles/demo/reader"] ++ inloop
           ++ last ++ [Controller.ERegistryDelete "gcproles/demo/reader"].
Proof.
  destruct (Controller.runGCPRoleFinalizer Controller.calm 10
              (Some Controller.reader) 30 5 Controller.world0) as [w'|] eqn:Hrun.
  - destruct (X19_delete_then_remove Controller.calm Controller.reader 30 5
                Controller.world0 eq_refl 10 w' Hrun)
      as (inloop & last & Ht & _).
    exists w', inloop, last. split; [reflexivity | exact Ht].
  - exfalso. revert Hrun. vm_compute. discriminate.
Defined.

Section HappyPath.
Import Controller.
Variable env : Env.
Variable role : GCPRole.
Variable timeout interval : nat.

Lemma RemoveFinalizer_twice (m : ObjectMeta) (f : string) :
  RemoveFinalizer (RemoveFinalizer m f) f = RemoveFinalizer m f.
Proof.
  unfold RemoveFinalizer. cbn. f_equal.
  induction (Finalizers m) as [|x l IH]; [reflexivity|].
  cbn. destruct (String.eqb x f) eqn:Hx; cbn; [exact IH|].
  rewrite Hx. cbn. now rewrite IH.
Qed.

Lemma withoutFinalizer_twice (m : GCPRole) :
  withoutFinalizer (withoutFinalizer m) = withoutFinalizer m.
Proof.
  unfold withoutFinalizer, with_Meta. cbn [Meta Status].
  now rewrite RemoveFinalizer_twice.
Qed.

(** [removeGCPRoleFinalizer] when the store answers and holds the role under
    its key. *)
Lemma removeGCPRoleFinalizer_answers (cur : GCPRole) (w : World) :
  let key := key_of (Namespace (Meta role)) (Name (Meta role)) in
  (forall tr, getFault env tr = None) ->
  (forall tr, patchFault env tr = None) ->
  store w !! key = Some cur ->
  key_of (Namespace (Meta cur)) (Name (Meta cur)) = key ->
  exists w',
    removeGCPRoleFinalizer env role w = (None, w')
    /\ trace w' = trace w ++ [ERemoveFinalizer key; EGet key None; EPatchGCPRole key None]
    /\ store w' = <[key := withoutFinalizer cur]> (store w)
    /\ finalizerInfo w' = finalizerInfo w.
Proof.
  intros key Hget Hpatch Hcur Hkey.
  rewrite removeGCPRoleFinalizer_eq. cbv zeta. fold key.
  unfold Get_answer. rewrite Hget.
  change (store (entered role w)) with (store w). rewrite Hcur.
  cbn [snd fst IsNotFound]. unfold PatchGCPRole. rewrite Hkey, patch_eq, Hpatch.
  change (store (read env role w)) with (store w). rewrite Hcur.
  eexists. split; [reflexivity|].
  rewrite trace_written, store_written.
  assert (Ht : trace (read env role w) = trace w ++ [ERemoveFinalizer key; EGet key None]).
  { unfold read. fold key. unfold Get_answer. rewrite Hget.
    change (store (entered role w)) with (store w). rewrite Hcur.
    rewrite trace_called. unfold entered. cbn [snd emit trace].
    now rewrite <- app_assoc. }
  rewrite Ht, <- app_assoc. now repeat split.
Qed.

(** The run when everything goes through. With a positive timeout, a
    backend and a store that answer, and the role in the store under its
    key, the run ends in its first pass, whatever the interval: it makes
    the client, deletes the role once, removes the token, and then, after
    the loop, reads and patches the resource a second time, which changes
    nothing more. The stored resource has lost the token, and the id is
    out of the registry. *)
Theorem X21_run_when_all_goes_through (cur : GCPRole) (w : World) (fuel : nat) :
  let id := getGCPRoleId env role in
  let key := key_of (Namespace (Meta role)) (Name (Meta role)) in
  finalizerInfo w !! id = None ->
  0 < timeout ->
  (forall tr, newGCPRole env tr = None) ->
  (forall tr, deleteRole env tr = None) ->
  (forall tr, getFault env tr = None) ->
  (forall tr, patchFault env tr = None) ->
  store w !! key = Some cur ->
  key_of (Namespace (Meta cur)) (Name (Meta cur)) = key ->
  exists w',
    runGCPRoleFinalizer env (S fuel) (Some role) timeout interval w = Some w'
    /\ trace w'
       = trace w ++ [ ERegistryAdd id; ENewGCPRole None;
                      EDeleteRole (RoleName env role) None;
                      ERemoveFinalizer key; EGet key None; EPatchGCPRole key None;
                      ERemoveFinalizer key; EGet key None; EPatchGCPRole key None;
                      ERegistryDelete id ]
    /\ store w' = <[key := withoutFinalizer cur]> (store w)
    /\ HasFinalizer (Meta (withoutFinalizer cur)) GCPRoleFinalizer = false
    /\ finalizerInfo w' !! id = None.
Proof.
  intros id key Hfree Hpos Hnew Hdel Hget Hpatch Hcur Hkey.
  rewrite (runGCPRoleFinalizer_eq env role timeout interval _ w Hfree).
  rewrite loop_S, iteration_eq, poll_stopCh_eq. cbv zeta. cbn [fst].
  cbn [stopCh first_pass].
  assert (Hlate : (now (registered env role w) + timeout
                   <=? now (registered env role w))%nat = false)
    by (apply Nat.leb_gt; lia).
  rewrite Hlate. cbn [timeOutOccured first_pass].
  rewrite tryFinalize_eq. cbn [finalizationDone first_pass]. cbv zeta.
  rewrite Hnew, Hdel.
  set (w2 := called env (EDeleteRole _ None) (called env (ENewGCPRole None) _)).
  unfold tryRemove. cbn [finalizationDone set_finalizationDone]. unfold bind at 1.
  destruct (registered_eq env role w) as (Hr0 & Ht0 & Hs0 & _).
  destruct (removeGCPRoleFinalizer_answers cur w2 Hget Hpatch)
    as (w3 & Hrun3 & Ht3 & Hs3 & Hr3); [now rewrite <- Hs0 in Hcur | exact Hkey |].
  rewrite Hrun3. cbn [ret].
  destruct (removeGCPRoleFinalizer_answers (withoutFinalizer cur) w3 Hget Hpatch)
    as (w4 & Hrun4 & Ht4 & Hs4 & Hr4);
    [fold key; rewrite Hs3; apply lookup_insert_eq | exact Hkey |].
  rewrite Hrun4. fold id key in Ht3, Ht4, Hs3, Hs4 |- *.
  eexists. split; [reflexivity|]. cbn [snd Delete bind get_world set_finalizerInfo emit
                                       trace store finalizerInfo].
  split; [|split; [|split]].
  - rewrite Ht4, Ht3. unfold w2. rewrite !trace_called, Ht0. fold id.
    now rewrite <- !app_assoc.
  - rewrite Hs4, Hs3. unfold w2. rewrite !store_called, Hs0.
    rewrite withoutFinalizer_twice. now rewrite insert_insert_eq.
  - apply HasFinalizer_RemoveFinalizer.
  - rewrite Hr4, Hr3. unfold w2. cbn [finalizerInfo called]. rewrite Hr0.
    apply lookup_delete_eq.
Qed.

End HappyPath.

Lemma X21_run_when_all_goes_through_witness :
  exists w',
    Controller.runGCPRoleFinalizer Controller.calm 1 (Some Controller.reader) 30 5
      Controller.world0 = Some w'
    /\ Controller.store w'
       = <["demo/reader" := Controller.withoutFinalizer Controller.reader]>
           (Controller.store Controller.world0).
Proof.
  destruct (X21_run_when_all_goes_through Controller.calm Controller.reader 30 5
              Controller.reader Controller.world0 0 eq_refl (Nat.lt_0_succ 29)
              (fun _ => eq_refl) (fun _ => eq_refl) (fun _ => eq_refl)
              (fun _ => eq_refl) eq_refl eq_refl)
    as (w' & Hrun & _ & Hstore & _).
  exists w'. split; assumption.
Defined.
